(** * Header synchronisation session and stop signal of libbitcoin-node

    A shallow embedding of
    - [src/sessions/session_header_sync.cpp]: the range resolution
      ([get_range]), the start sequence ([handle_started], [initialize]) and
      the connect / negotiate / download / retry loop ([new_connection],
      [handle_connect], [handle_channel_start], [attach_protocols],
      [handle_complete]);
    - [console/executor.cpp]: the set-once stop signal ([executor::stop],
      [executor::handle_stop]) and the wait in [executor::run].

    The session is callback driven.  Every member function is a function
    from the session object to the new session object, the list of calls it
    made on its collaborators (the caller's handler, the connector, the
    header queue, the channel) and the callback it left registered.  The
    network layer is the environment: it answers a registered callback with
    a result code.  [LOG_*] statements have no effect on the session and are
    left out. *)

From Stdlib Require Import ZArith List Bool Lia QArith Qpower Lqa SpecFloat.
Import ListNotations.
Local Open Scope Z_scope.

(** ** Result codes *)

(** [bc::code].  The session tests a code only for being set ([if (ec)]) and
    produces [error::success], [error::operation_failed] and
    [error::not_found] itself; every other value reaches it from the network
    layer and is carried through unchanged. *)
Inductive code : Type :=
| success
| operation_failed
| not_found
| network_error (n : positive).

(** [if (ec)]: true for every code but [success]. *)
Definition is_error (ec : code) : bool :=
  match ec with
  | success => false
  | _ => true
  end.

(** ** Unsigned machine integers *)

(** [size_t] on the 64-bit targets the node is built for: arithmetic is
    modulo [2^64]. *)
Module size_t.
Definition bits : Z := 64.
Definition modulus : Z := 2 ^ bits.
Definition max : Z := modulus - 1.
Definition add (a b : Z) : Z := (a + b) mod modulus.
Definition sub (a b : Z) : Z := (a - b) mod modulus.
End size_t.

(** ** Checkpoints and headers *)

Definition hash_digest : Type := Z.

Definition null_hash : hash_digest := 0.

(** [config::checkpoint]: a hash and a height. *)
Record checkpoint : Type := Build_checkpoint {
  hash : hash_digest;
  height : Z
}.

(** [checkpoint seed;]: the default-constructed checkpoint. *)
Definition default_checkpoint : checkpoint :=
  {| hash := null_hash; height := 0 |}.

(** [checkpoint::operator==]: same hash and same height. *)
Definition checkpoint_eqb (a b : checkpoint) : bool :=
  (hash a =? hash b) && (height a =? height b).

(** Modelled from the spec: [chain::header] is declared outside the session;
    the session reads nothing of a header but the digest its [hash()]
    returns, so a header is carried as that digest. *)
Record header : Type := Build_header {
  header_hash : hash_digest
}.

(** Modelled from the spec: [checkpoint::sort] "normalizes by sorting
    ascending on height".  Insertion sort on the height. *)
Fixpoint checkpoint_insert (c : checkpoint) (l : list checkpoint)
  : list checkpoint :=
  match l with
  | [] => [c]
  | d :: l' =>
      if height c <=? height d then c :: d :: l'
      else d :: checkpoint_insert c l'
  end.

Fixpoint checkpoint_sort (l : list checkpoint) : list checkpoint :=
  match l with
  | [] => []
  | c :: l' => checkpoint_insert c (checkpoint_sort l')
  end.

(** [checkpoints_.back()], or [None] when [checkpoints_.empty()]. *)
Fixpoint back {A : Type} (l : list A) : option A :=
  match l with
  | [] => None
  | [x] => Some x
  | _ :: l' => back l'
  end.

(** ** The chain reader *)

(** The three queries of [blockchain::fast_chain] the session makes.  Each
    C++ query returns [bool] and fills its out parameters on [true]; here it
    returns the filled values, or [None] for [false]. *)
Record fast_chain : Type := Build_fast_chain {
  get_last_height : option Z;
  get_gap_range : option (Z * Z);
  get_header : Z -> option header
}.

(** ** Range resolution *)

(** The working bounds [(first_height, last_height)] of [get_range], given
    the chain's last height: the gap's neighbours when a gap is reported,
    the last height twice otherwise. *)
Definition working_heights (chain : fast_chain) (last_height : Z) : Z * Z :=
  let first_height := last_height in
  match get_gap_range chain with
  | Some (first_gap, last_gap) =>
      (size_t.sub first_gap 1, size_t.add last_gap 1)
  | None => (first_height, last_height)
  end.

(** The condition of the first branch of [get_range],
    [!checkpoints_.empty() && checkpoints_.back().height() > last_height],
    with the checkpoint it selects. *)
Definition checkpoint_above (checkpoints : list checkpoint) (last_height : Z)
  : option checkpoint :=
  match back checkpoints with
  | Some top => if height top >? last_height then Some top else None
  | None => None
  end.

(** [session_header_sync::get_range].  The two reference parameters are
    passed in and returned next to the code. *)
Definition get_range (chain : fast_chain) (checkpoints : list checkpoint)
    (out_seed out_stop : checkpoint) : code * checkpoint * checkpoint :=
  match get_last_height chain with
  | None => (operation_failed, out_seed, out_stop)
  | Some tip =>
      let '(first_height, last_height) := working_heights chain tip in
      match get_header chain first_height with
      | None => (not_found, out_seed, out_stop)
      | Some first_header =>
          let seed := Build_checkpoint (header_hash first_header) first_height in
          match checkpoint_above checkpoints last_height with
          | Some top => (success, seed, top)
          | None =>
              if first_height =? last_height then (success, seed, seed)
              else
                match get_header chain last_height with
                | None => (not_found, out_seed, out_stop)
                | Some last_header =>
                    (success, seed,
                     Build_checkpoint (header_hash last_header) last_height)
                end
          end
      end
  end.

(** ** Single precision arithmetic of the back-off *)

(** IEEE 754 binary32 through the Standard Library's executable
    specification: 24 bits of mantissa, infinities at exponent 128. *)
Module float32.
Definition prec : Z := 24.
Definition emax : Z := 128.

(** Conversion of an unsigned integer to [float] (round to nearest,
    ties to even). *)
Definition of_uint32 (n : Z) : spec_float :=
  binary_normalize prec emax n 0 false.

Definition mul (x y : spec_float) : spec_float := SFmul prec emax x y.

Definition ltb (x y : spec_float) : bool := SFltb x y.

(** The integer part of a float, rounded toward zero; [None] for an
    infinity or a NaN. *)
Definition truncate (x : spec_float) : option Z :=
  match x with
  | S754_zero _ => Some 0
  | S754_finite s m e =>
      let magnitude :=
        match e with
        | Z0 => Zpos m
        | Zpos _ => Zpos m * 2 ^ e
        | Zneg _ => Zpos m / 2 ^ (- e)
        end in
      Some (if s then - magnitude else magnitude)
  | _ => None
  end.

(** [static_cast<uint32_t>] of a float: the truncated value.  C++ leaves
    the cast undefined when that value is not a [uint32_t]; the model
    then reduces modulo [2^32] ([rate_cast_defined] below shows that the
    session never casts such a value). *)
Definition to_uint32 (x : spec_float) : Z :=
  match truncate x with
  | Some v => v mod 2 ^ 32
  | None => 0
  end.

(** The cast is defined: the truncated value is a [uint32_t]. *)
Definition cast_defined (x : spec_float) : bool :=
  match truncate x with
  | Some v => (0 <=? v) && (v <? 2 ^ 32)
  | None => false
  end.

Definition one : spec_float := S754_finite false 8388608 (-23).
End float32.

(** [static constexpr float back_off_factor = 0.75f;]: 0.75 is
    [12582912 * 2^-24] in binary32. *)
Definition back_off_factor : spec_float := S754_finite false 12582912 (-24).

(** [static constexpr uint32_t headers_per_second = 10000;] *)
Definition headers_per_second : Z := 10000.

(** [static_cast<uint32_t>(minimum_rate_ * back_off_factor)]: the rate is
    converted to [float], multiplied in [float], and cast back. *)
Definition back_off (minimum_rate : Z) : Z :=
  float32.to_uint32
    (float32.mul (float32.of_uint32 minimum_rate) back_off_factor).

(** ** The collaborators of the session *)

(** Modelled from the spec: [header_queue] lives outside the session
    source.  "An ordered, mutable accumulator of header hashes [...] keyed
    implicitly by height offset from a seed", with [empty()] and
    [initialize(seed_checkpoint)]; once initialized it holds the seed. *)
Module header_queue.
Record t : Type := Build_t {
  first_height : Z;
  hashes : list hash_digest
}.

Definition empty (q : t) : bool :=
  match hashes q with
  | [] => true
  | _ => false
  end.

Definition initialize (seed : checkpoint) (q : t) : t :=
  {| first_height := height seed; hashes := [hash seed] |}.

Definition fresh : t := {| first_height := 0; hashes := [] |}.
End header_queue.

(** A connector is known to the session by its identity only. *)
Definition connector : Type := nat.

(** A channel: its peer and the version negotiated with it. *)
Record channel : Type := Build_channel {
  authority : nat;
  negotiated_version : Z
}.

(** Modelled from the spec: the [message::version::level] constants are
    declared outside the session.  [bip31] and [bip61] are the protocol
    versions the two "tiers" of ping and handshake protocols are named
    after ([protocol_ping_60001], [protocol_version_70002]). *)
Module level.
Definition bip31 : Z := 60001.
Definition bip61 : Z := 70002.
End level.

(** The protocols the session attaches to a channel.  The header sync
    protocol is constructed with the session's current minimum rate and
    stop checkpoint (and a reference to the header queue). *)
Inductive protocol : Type :=
| protocol_version_70002
| protocol_version_31402
| protocol_ping_60001
| protocol_ping_31402
| protocol_address_31402
| protocol_header_sync (minimum_rate : Z) (last : checkpoint).

(** The calls a member function makes on its collaborators, in order. *)
Inductive call : Type :=
| call_handler (ec : code)
| call_create_connector (connect : connector)
| call_connect (connect : connector)
| call_register_channel (ch : channel)
| call_attach (p : protocol) (ch : channel)
| call_hashes_initialize (seed : checkpoint).

(** The callback a member function leaves registered with the network
    layer, with the arguments bound into it. *)
Inductive callback : Type :=
| cb_handle_started
| cb_handle_connect (connect : connector)
| cb_handle_channel_start (connect : connector) (ch : channel)
| cb_handle_complete (connect : connector).

(** ** The session object *)

(** The members of [session_header_sync], and of its base class what the
    session reads: [stopped_] is what [stopped()] returns, and
    [connectors_] counts the connectors [create_connector()] has made. *)
Record session_header_sync : Type := Build_session {
  hashes_ : header_queue.t;
  minimum_rate_ : Z;
  last_ : checkpoint;
  chain_ : fast_chain;
  checkpoints_ : list checkpoint;
  stopped_ : bool;
  connectors_ : nat
}.

(** The constructor: the rate starts at [headers_per_second] and the
    checkpoints are sorted. *)
Definition construct (hashes : header_queue.t) (blockchain : fast_chain)
    (checkpoints : list checkpoint) : session_header_sync :=
  {| hashes_ := hashes;
     minimum_rate_ := headers_per_second;
     last_ := default_checkpoint;
     chain_ := blockchain;
     checkpoints_ := checkpoint_sort checkpoints;
     stopped_ := false;
     connectors_ := 0 |}.

Definition set_hashes (q : header_queue.t) (s : session_header_sync) :=
  Build_session q (minimum_rate_ s) (last_ s) (chain_ s) (checkpoints_ s)
    (stopped_ s) (connectors_ s).

Definition set_minimum_rate (r : Z) (s : session_header_sync) :=
  Build_session (hashes_ s) r (last_ s) (chain_ s) (checkpoints_ s)
    (stopped_ s) (connectors_ s).

Definition set_last (c : checkpoint) (s : session_header_sync) :=
  Build_session (hashes_ s) (minimum_rate_ s) c (chain_ s) (checkpoints_ s)
    (stopped_ s) (connectors_ s).

Definition set_stopped (b : bool) (s : session_header_sync) :=
  Build_session (hashes_ s) (minimum_rate_ s) (last_ s) (chain_ s)
    (checkpoints_ s) b (connectors_ s).

Definition set_connectors (n : nat) (s : session_header_sync) :=
  Build_session (hashes_ s) (minimum_rate_ s) (last_ s) (chain_ s)
    (checkpoints_ s) (stopped_ s) n.

(** ** Member functions as actions *)

(** An action reads and updates the session object and logs the calls it
    makes. *)
Definition action (A : Type) : Type :=
  session_header_sync -> A * session_header_sync * list call.

Definition ret {A : Type} (a : A) : action A := fun s => (a, s, []).

Definition bind {A B : Type} (m : action A) (k : A -> action B) : action B :=
  fun s =>
    let '(a, s1, out1) := m s in
    let '(b, s2, out2) := k a s1 in
    (b, s2, out1 ++ out2).

Definition get : action session_header_sync := fun s => (s, s, []).

Definition modify (f : session_header_sync -> session_header_sync)
  : action unit := fun s => (tt, f s, []).

Definition emit (c : call) : action unit := fun s => (tt, s, [c]).

Declare Scope action_scope.
Delimit Scope action_scope with action.
Notation "x <- m ;; k" := (bind m (fun x => k))
  (at level 61, m at next level, right associativity) : action_scope.
Notation "m ;; k" := (bind m (fun _ => k))
  (at level 61, right associativity) : action_scope.
Local Open Scope action_scope.

(** [handler(ec)]. *)
Definition handler (ec : code) : action unit := emit (call_handler ec).

(** [create_connector()]: a connector that did not exist before. *)
Definition create_connector : action connector :=
  s <- get ;;
  modify (set_connectors (S (connectors_ s))) ;;
  emit (call_create_connector (connectors_ s)) ;;
  ret (connectors_ s).

(** [session_header_sync::new_connection]. *)
Definition new_connection (connect : connector) : action (option callback) :=
  s <- get ;;
  if stopped_ s then ret None
  else
    emit (call_connect connect) ;;
    ret (Some (cb_handle_connect connect)).

(** [session_header_sync::handle_complete]. *)
Definition handle_complete (ec : code) (connect : connector)
  : action (option callback) :=
  if negb (is_error ec) then
    handler ec ;;
    ret None
  else
    s <- get ;;
    modify (set_minimum_rate (back_off (minimum_rate_ s))) ;;
    new_connection connect.

(** [session_header_sync::attach_protocols].  The [BITCOIN_ASSERT] on the
    negotiated version is a check of debug builds and has no effect. *)
Definition attach_protocols (ch : channel) (connect : connector)
  : action (option callback) :=
  (if negotiated_version ch >=? level.bip31
   then emit (call_attach protocol_ping_60001 ch)
   else emit (call_attach protocol_ping_31402 ch)) ;;
  emit (call_attach protocol_address_31402 ch) ;;
  s <- get ;;
  emit (call_attach (protocol_header_sync (minimum_rate_ s) (last_ s)) ch) ;;
  ret (Some (cb_handle_complete connect)).

(** [session_header_sync::handle_channel_start]. *)
Definition handle_channel_start (ec : code) (connect : connector)
    (ch : channel) : action (option callback) :=
  if is_error ec then handle_complete ec connect
  else attach_protocols ch connect.

(** [session_header_sync::attach_handshake_protocols], which the base
    class calls on a registered channel before it reports the channel
    start. *)
Definition attach_handshake_protocols (ch : channel) : action unit :=
  if negotiated_version ch >=? level.bip61
  then emit (call_attach protocol_version_70002 ch)
  else emit (call_attach protocol_version_31402 ch).

(** [session_header_sync::handle_connect]. *)
Definition handle_connect (ec : code) (ch : channel) (connect : connector)
  : action (option callback) :=
  if is_error ec then new_connection connect
  else
    emit (call_register_channel ch) ;;
    ret (Some (cb_handle_channel_start connect ch)).

(** [session_header_sync::initialize]. *)
Definition initialize : action bool :=
  s <- get ;;
  if negb (header_queue.empty (hashes_ s)) then
    handler operation_failed ;;
    ret false
  else
    let '(ec, seed, stop) :=
      get_range (chain_ s) (checkpoints_ s) default_checkpoint (last_ s) in
    modify (set_last stop) ;;
    if is_error ec then
      handler ec ;;
      ret false
    else if checkpoint_eqb seed stop then
      handler success ;;
      ret false
    else
      modify (set_hashes (header_queue.initialize seed (hashes_ s))) ;;
      emit (call_hashes_initialize seed) ;;
      ret true.

(** [session_header_sync::handle_started]. *)
Definition handle_started (ec : code) : action (option callback) :=
  if is_error ec then
    handler ec ;;
    ret None
  else
    ready <- initialize ;;
    if negb ready then ret None
    else
      connect <- create_connector ;;
      new_connection connect.

(** [session_header_sync::start]: the base class start sequence is asked to
    report to [handle_started]. *)
Definition start : action (option callback) := ret (Some cb_handle_started).

(** ** The network layer as environment *)

(** What the environment does to a session: it invokes the registered
    callback with a result code (and, for a connect, a channel), it reports
    that a channel stopped, or it stops the session. *)
Inductive event : Type :=
| ev_result (ec : code)
| ev_connect (ec : code) (ch : channel)
| ev_channel_stop (ec : code)
| ev_stop.

(** [session_header_sync::handle_channel_stop] only logs. *)
Definition handle_channel_stop (ec : code) : action unit := ret tt.

(** The member function a registered callback runs on an event; [None]
    when the event is not an answer to that callback. *)
Definition deliver (cb : callback) (ev : event)
  : option (action (option callback)) :=
  match cb, ev with
  | cb_handle_started, ev_result ec => Some (handle_started ec)
  | cb_handle_connect connect, ev_connect ec ch =>
      Some (handle_connect ec ch connect)
  | cb_handle_channel_start connect ch, ev_result ec =>
      Some (handle_channel_start ec connect ch)
  | cb_handle_complete connect, ev_result ec =>
      Some (handle_complete ec connect)
  | _, _ => None
  end.

(** A session between two events: the object and the registered
    callback, if any. *)
Definition config : Type := (option callback * session_header_sync)%type.

(** One event.  A stop raises the flag [stopped()] reads and a channel stop
    is logged, both leaving the registered callback in place; a result is
    delivered to the registered callback.  [None]: the event answers no
    registered callback. *)
Definition step (c : config) (ev : event) : option (config * list call) :=
  let '(pending, s) := c in
  match ev with
  | ev_stop => Some ((pending, set_stopped true s), [])
  | ev_channel_stop ec =>
      let '(_, s', out) := handle_channel_stop ec s in
      Some ((pending, s'), out)
  | _ =>
      match pending with
      | None => None
      | Some cb =>
          match deliver cb ev with
          | None => None
          | Some run_callback =>
              let '(pending', s', out) := run_callback s in
              Some ((pending', s'), out)
          end
      end
  end.

(** A sequence of events, with all the calls made on the way. *)
Fixpoint run (c : config) (evs : list event) : option (config * list call) :=
  match evs with
  | [] => Some (c, [])
  | ev :: evs' =>
      match step c ev with
      | None => None
      | Some (c1, out1) =>
          match run c1 evs' with
          | None => None
          | Some (c2, out2) => Some (c2, out1 ++ out2)
          end
      end
  end.

(** [start(handler)] followed by a sequence of events. *)
Definition run_session (s : session_header_sync) (evs : list event)
  : option (config * list call) :=
  let '(pending, s', out) := start s in
  match run (pending, s') evs with
  | None => None
  | Some (c, out') => Some (c, out ++ out')
  end.

(** The codes the caller's handler was invoked with, the connectors a
    connect was attempted on, the seeds the header queue was initialized
    with and the connectors created, in order. *)
Definition handler_calls (out : list call) : list code :=
  flat_map (fun c => match c with call_handler ec => [ec] | _ => [] end) out.

Definition connect_calls (out : list call) : list connector :=
  flat_map (fun c => match c with call_connect k => [k] | _ => [] end) out.

Definition initialize_calls (out : list call) : list checkpoint :=
  flat_map
    (fun c => match c with call_hashes_initialize k => [k] | _ => [] end) out.

Definition connector_calls (out : list call) : list connector :=
  flat_map
    (fun c => match c with call_create_connector k => [k] | _ => [] end) out.

(** The session after [k] failed downloads in a row. *)
Fixpoint after_failures (k : nat) (ec : code) (connect : connector)
    (s : session_header_sync) : session_header_sync :=
  match k with
  | O => s
  | S k' =>
      let '(_, s', _) := handle_complete ec connect s in
      after_failures k' ec connect s'
  end.

(** The minimum rates and the stop checkpoints the header sync protocol
    was constructed with, in order. *)
Definition attach_rates (out : list call) : list Z :=
  flat_map
    (fun c => match c with
              | call_attach (protocol_header_sync r _) _ => [r]
              | _ => []
              end) out.

Definition attach_stops (out : list call) : list checkpoint :=
  flat_map
    (fun c => match c with
              | call_attach (protocol_header_sync _ last) _ => [last]
              | _ => []
              end) out.

(** No element of the list is above the one before it, nor the first above
    [bound]. *)
Fixpoint descending (bound : Z) (l : list Z) : Prop :=
  match l with
  | [] => True
  | r :: l' => r <= bound /\ descending r l'
  end.

(** The events of one attempt that connects to [ch], completes the
    handshake and ends with the download result [ec]. *)
Definition attempt (ch : channel) (ec : code) : list event :=
  [ev_connect success ch; ev_result success; ev_result ec].

(** The three ways an attempt fails: the connect, the handshake on the
    connected channel, or the download after the handshake. *)
Inductive failure : Type :=
| connect_failure (ec : code)
| handshake_failure (ec : code)
| download_failure (ec : code).

Definition failure_code (f : failure) : code :=
  match f with
  | connect_failure ec | handshake_failure ec | download_failure ec => ec
  end.

(** The events of a failed attempt on the channel [ch]. *)
Definition failure_events (ch : channel) (f : failure) : list event :=
  match f with
  | connect_failure ec => [ev_connect ec ch]
  | handshake_failure ec => [ev_connect success ch; ev_result ec]
  | download_failure ec =>
      [ev_connect success ch; ev_result success; ev_result ec]
  end.

(** The failures that go through [handle_complete]. *)
Definition backs_off (f : failure) : bool :=
  match f with
  | connect_failure _ => false
  | _ => true
  end.

(** Channel stop notifications. *)
Definition is_channel_stop (ev : event) : bool :=
  match ev with
  | ev_channel_stop _ => true
  | _ => false
  end.

(** ** The stop signal of the executor *)

Module executor.

(** What a C++ call does: it returns, or it throws. *)
Inductive outcome (A : Type) : Type :=
| returned (a : A)
| thrown.
Arguments returned {A} a.
Arguments thrown {A}.

(** [std::promise<code>]: the shared state holds a value once it is set,
    and the future is handed out once. *)
Record promise : Type := Build_promise {
  value : option code;
  future_retrieved : bool
}.

(** [std::promise::set_value] throws [promise_already_satisfied] when the
    shared state holds a value. *)
Definition set_value (p : promise) (ec : code) : outcome promise :=
  match value p with
  | None =>
      returned {| value := Some ec; future_retrieved := future_retrieved p |}
  | Some _ => thrown
  end.

(** [std::promise::get_future] throws [future_already_retrieved] on a
    second call. *)
Definition get_future (p : promise) : outcome promise :=
  if future_retrieved p then thrown
  else returned {| value := value p; future_retrieved := true |}.

(** [std::future::wait] returns once the shared state holds a value:
    the value the waiter then finds, [None] while it is still blocked. *)
Definition wait (p : promise) : option code := value p.

(** The statics of the executor: [stopping_] and the [std::once_flag]
    [stop_mutex] of [stop]. *)
Record statics : Type := Build_statics {
  stopping_ : promise;
  stop_mutex : bool
}.

Definition initial : statics :=
  {| stopping_ := {| value := None; future_retrieved := false |};
     stop_mutex := false |}.

(** [executor::stop]: [std::call_once] runs the function when the flag is
    not set, and sets the flag when the function returns; when the
    function throws the flag stays unset and the exception propagates. *)
Definition stop (ec : code) (st : statics) : outcome statics :=
  if stop_mutex st then returned st
  else
    match set_value (stopping_ st) ec with
    | returned p => returned {| stopping_ := p; stop_mutex := true |}
    | thrown => thrown
    end.

(** [static constexpr int initialize_stop = 0;] *)
Definition initialize_stop : Z := 0.

(** [executor::handle_stop]: the signal handlers are installed again, and
    any signal but the initial call stops with [error::success]. *)
Definition handle_stop (signal : Z) (st : statics) : outcome statics :=
  if signal =? initialize_stop then returned st
  else stop success st.

(** [executor::handle_stopped], and the failure branches of
    [executor::handle_started] and [executor::handle_running]. *)
Definition handle_stopped (ec : code) (st : statics) : outcome statics :=
  stop ec st.

(** [stopping_.get_future().wait()] in [executor::run]: the future is
    taken from the promise and waited on. *)
Definition wait_for_stop (st : statics) : outcome (statics * option code) :=
  match get_future (stopping_ st) with
  | returned p =>
      returned ({| stopping_ := p; stop_mutex := stop_mutex st |}, wait p)
  | thrown => thrown
  end.

(** A sequence of calls of [stop], one code each. *)
Fixpoint stops (ecs : list code) (st : statics) : outcome statics :=
  match ecs with
  | [] => returned st
  | ec :: ecs' =>
      match stop ec st with
      | returned st' => stops ecs' st'
      | thrown => thrown
      end
  end.

(** The statics once [first] is recorded, the future of the promise
    retrieved or not. *)
Definition recorded (first : code) (retrieved : bool) : statics :=
  {| stopping_ := {| value := Some first; future_retrieved := retrieved |};
     stop_mutex := true |}.

(** *** The commands of the executor *)

(** The settings of [metadata_.configured] the executor reads: the four
    command line flags, the chain rules and whether a configuration file
    was named. *)
Record configuration : Type := Build_configuration {
  help : bool;
  settings : bool;
  version : bool;
  initchain : bool;
  use_testnet_rules : bool;
  file_empty : bool
}.

(** What the collaborators answer: [create_directories(directory, ec)] and
    [exists(directory, ec)] with the flag returned and [ec.value()],
    [data_base::create] and [full_node::close]. *)
Record environment : Type := Build_environment {
  create_directories_result : bool * Z;
  exists_result : bool * Z;
  create_result : bool;
  close_result : bool
}.

(** [static constexpr int directory_exists = 0;] and
    [static constexpr int directory_not_found = 2;] *)
Definition directory_exists : Z := 0.
Definition directory_not_found : Z := 2.

Inductive genesis : Type := genesis_testnet | genesis_mainnet.

(** The messages of the executor, by the names of their macros. *)
Inductive message : Type :=
| BN_LOG_HEADER
| BN_USING_DEFAULT_CONFIG
| BN_USING_CONFIG_FILE
| BN_INITIALIZING_CHAIN
| BN_INITCHAIN_COMPLETE
| BN_INITCHAIN_EXISTS
| BN_INITCHAIN_NEW
| BN_UNINITIALIZED_CHAIN
| BN_INITCHAIN_TRY
| BN_NODE_INTERRUPT
| BN_NODE_STARTING
| BN_NODE_START_FAIL
| BN_NODE_SEEDED
| BN_NODE_STARTED
| BN_NODE_SIGNALED
| BN_NODE_STOPPING
| BN_NODE_STOPPED
| BN_NODE_STOP_FAIL.

Inductive severity : Type :=
| log_debug | log_info | log_warning | log_error | log_fatal.

(** What the executor does to the outside, in order: what it prints and
    logs, and its calls on the file system, the database, the node and
    [std::signal]. *)
Inductive effect : Type :=
| print_commandline
| print_settings
| print_version
| log (level : severity) (m : message)
| call_create_directories
| call_exists
| call_database_create (g : genesis)
| call_node_construct
| call_node_start
| call_node_subscribe_stop
| call_node_run
| call_node_close
| call_install_handlers.

(** [executor::initialize_output]. *)
Definition initialize_output (cfg : configuration) : list effect :=
  [log log_debug BN_LOG_HEADER; log log_info BN_LOG_HEADER;
   log log_warning BN_LOG_HEADER; log log_error BN_LOG_HEADER;
   log log_fatal BN_LOG_HEADER;
   if file_empty cfg then log log_info BN_USING_DEFAULT_CONFIG
   else log log_info BN_USING_CONFIG_FILE].

(** [executor::do_initchain]: the value returned and what was done. *)
Definition do_initchain (env : environment) (cfg : configuration)
  : bool * list effect :=
  let '(created, ec) := create_directories_result env in
  if created then
    let genesis_block :=
      if use_testnet_rules cfg then genesis_testnet else genesis_mainnet in
    (create_result env,
     initialize_output cfg ++
     [call_create_directories; log log_info BN_INITIALIZING_CHAIN;
      call_database_create genesis_block; log log_info BN_INITCHAIN_COMPLETE])
  else if ec =? directory_exists then
    (false,
     initialize_output cfg ++
     [call_create_directories; log log_error BN_INITCHAIN_EXISTS])
  else
    (false,
     initialize_output cfg ++
     [call_create_directories; log log_error BN_INITCHAIN_NEW]).

(** [executor::verify_directory]. *)
Definition verify_directory (env : environment) : bool * list effect :=
  let '(found, ec) := exists_result env in
  if found then (true, [call_exists])
  else if ec =? directory_not_found then
    (false, [call_exists; log log_error BN_UNINITIALIZED_CHAIN])
  else (false, [call_exists; log log_error BN_INITCHAIN_TRY]).

(** What reaches the executor while it waits: the completion of the node's
    start, of its run, its stop, and a signal of the operating system. *)
Inductive event : Type :=
| node_started (ec : code)
| node_running (ec : code)
| node_stopped (ec : code)
| signal (n : Z).

(** A call on the statics together with what it logs and calls. *)
Definition with_effects (r : outcome statics) (effs : list effect)
  : outcome (statics * list effect) :=
  match r with
  | returned st => returned (st, effs)
  | thrown => thrown
  end.

(** [executor::handle_started]. *)
Definition handle_started (ec : code) (st : statics)
  : outcome (statics * list effect) :=
  if is_error ec then
    with_effects (stop ec st) [log log_error BN_NODE_START_FAIL]
  else
    returned (st, [log log_info BN_NODE_SEEDED; call_node_subscribe_stop;
                   call_node_run]).

(** [executor::handle_running]. *)
Definition handle_running (ec : code) (st : statics)
  : outcome (statics * list effect) :=
  if is_error ec then
    with_effects (stop ec st) [log log_info BN_NODE_START_FAIL]
  else returned (st, [log log_info BN_NODE_STARTED]).

(** The handler an event runs: [handle_started], [handle_running],
    [handle_stopped], or [handle_stop] with what it installs and logs. *)
Definition react (ev : event) (st : statics)
  : outcome (statics * list effect) :=
  match ev with
  | node_started ec => handle_started ec st
  | node_running ec => handle_running ec st
  | node_stopped ec => with_effects (handle_stopped ec st) []
  | signal n =>
      with_effects (handle_stop n st)
        (call_install_handlers ::
         if n =? initialize_stop then [] else [log log_info BN_NODE_SIGNALED])
  end.

Fixpoint reacts (evs : list event) (st : statics)
  : outcome (statics * list effect) :=
  match evs with
  | [] => returned (st, [])
  | ev :: evs' =>
      match react ev st with
      | returned (st1, effs1) =>
          match reacts evs' st1 with
          | returned (st2, effs2) => returned (st2, effs1 ++ effs2)
          | thrown => thrown
          end
      | thrown => thrown
      end
  end.

(** [executor::run], with the events that reach the executor before its
    wait is over.  The value is [None] as long as the wait blocks. *)
Definition run (env : environment) (cfg : configuration) (evs : list event)
    (st : statics) : outcome (option bool * statics * list effect) :=
  let opening :=
    initialize_output cfg ++
    [log log_info BN_NODE_INTERRUPT; log log_info BN_NODE_STARTING] in
  let '(verified, checked) := verify_directory env in
  if negb verified then returned (Some false, st, opening ++ checked)
  else
    match reacts evs st with
    | thrown => thrown
    | returned (st1, effs) =>
        let started :=
          opening ++ checked ++ [call_node_construct; call_node_start] ++ effs in
        match wait_for_stop st1 with
        | thrown => thrown
        | returned (st2, None) => returned (None, st2, started)
        | returned (st2, Some _) =>
            returned
              (Some true, st2,
               started ++
               [log log_info BN_NODE_STOPPING; call_node_close;
                if close_result env then log log_info BN_NODE_STOPPED
                else log log_info BN_NODE_STOP_FAIL])
        end
    end.


(** The code an event asks [stop] to record, if it asks. *)
Definition stop_request (ev : event) : option code :=
  match ev with
  | node_started ec => if is_error ec then Some ec else None
  | node_running ec => if is_error ec then Some ec else None
  | node_stopped ec => Some ec
  | signal n => if n =? initialize_stop then None else Some success
  end.

Fixpoint first_stop_request (evs : list event) : option code :=
  match evs with
  | [] => None
  | ev :: evs' =>
      match stop_request ev with
      | Some ec => Some ec
      | None => first_stop_request evs'
      end
  end.

(** The calls an executor makes on the database and on the node. *)
Definition touches_database (e : effect) : bool :=
  match e with
  | call_database_create _ => true
  | _ => false
  end.

Definition touches_node (e : effect) : bool :=
  match e with
  | call_node_construct | call_node_start | call_node_subscribe_stop
  | call_node_run | call_node_close => true
  | _ => false
  end.

(** The statics in which nothing is recorded and the once flag is not
    set, the future retrieved or not. *)
Definition unset (retrieved : bool) : statics :=
  {| stopping_ := {| value := None; future_retrieved := retrieved |};
     stop_mutex := false |}.

(** What a handler of the executor may do: log, install the signal
    handlers, subscribe to the node's stop and run the node. *)
Definition handler_effect (e : effect) : bool :=
  match e with
  | log _ _ | call_install_handlers | call_node_subscribe_stop
  | call_node_run => true
  | _ => false
  end.

(** Printing and logging. *)
Definition output_effect (e : effect) : bool :=
  match e with
  | print_commandline | print_settings | print_version | log _ _ => true
  | _ => false
  end.

End executor.

(** ** Well-formed storage and sample inputs *)

(** A gap is "a range of missing headers below the current tip": it runs
    from [first_gap] to [last_gap], above the genesis header, and its upper
    neighbour is a height. *)
Definition gap_well_formed (chain : fast_chain) : Prop :=
  match get_gap_range chain with
  | Some (first_gap, last_gap) =>
      1 <= first_gap /\ first_gap <= last_gap /\ last_gap < size_t.max
  | None => True
  end.

(** The stored header at a height, as a checkpoint. *)
Definition stored_checkpoint (chain : fast_chain) (h : Z) : option checkpoint :=
  match get_header chain h with
  | Some hd => Some (Build_checkpoint (header_hash hd) h)
  | None => None
  end.

(** Headers [0..9] and [21..30] are stored, [10..20] are missing; the header
    at height [h] hashes to [1000 + h]. *)
Definition gap_chain : fast_chain :=
  {| get_last_height := Some 30;
     get_gap_range := Some (10, 20);
     get_header := fun h =>
       if ((0 <=? h) && (h <=? 9)) || ((21 <=? h) && (h <=? 30))
       then Some (Build_header (1000 + h)) else None |}.

(** Headers [0..100] are stored, none is missing. *)
Definition tip_chain : fast_chain :=
  {| get_last_height := Some 100;
     get_gap_range := None;
     get_header := fun h =>
       if (0 <=? h) && (h <=? 100)
       then Some (Build_header (1000 + h)) else None |}.

(** Only the genesis header is stored. *)
Definition genesis_chain : fast_chain :=
  {| get_last_height := Some 0;
     get_gap_range := None;
     get_header := fun h => if h =? 0 then Some (Build_header 1000) else None |}.

(** Storage that holds every header up to height [30] and yet reports a
    gap whose first height is above its last. *)
Definition inverted_gap_chain : fast_chain :=
  {| get_last_height := Some 30;
     get_gap_range := Some (20, 10);
     get_header := fun h =>
       if (0 <=? h) && (h <=? 30)
       then Some (Build_header (1000 + h)) else None |}.

(** Storage that cannot be read. *)
Definition unreadable_chain : fast_chain :=
  {| get_last_height := None;
     get_gap_range := None;
     get_header := fun _ => None |}.

Definition peer : channel := {| authority := 7; negotiated_version := 70002 |}.

Definition peer_timeout : code := network_error 1.


(** The value of a finite float as a rational. *)
Definition float_value (x : spec_float) : Q :=
  match x with
  | S754_finite s m e =>
      ((if s then -1 else 1) * inject_Z (Zpos m) * 2 ^ e)%Q
  | _ => 0%Q
  end.

(** The last element of a list bounds the heights of the others. *)
Definition back_highest (l : list checkpoint) : Prop :=
  forall top, back l = Some top -> forall c, In c l -> height c <= height top.

(** The callback registered inside the retry loop, if any, is bound to the
    connector [connect]. *)
Definition bound_to (connect : connector) (pending : option callback) : Prop :=
  match pending with
  | None => True
  | Some cb_handle_started => False
  | Some (cb_handle_connect k) => k = connect
  | Some (cb_handle_channel_start k _) => k = connect
  | Some (cb_handle_complete k) => k = connect
  end.

(** The minimum rate after [k] back-offs of the constructor's rate. *)
Definition rate_floor (k : nat) : Z := Nat.iter k back_off headers_per_second.

(** What is checked on each of the positive rates: the rate is positive,
    the next one is lower and is three quarters of it rounded down, and the
    cast of the product is defined. *)
Definition rate_table_ok (k : nat) : bool :=
  (0 <? rate_floor k) &&
  (rate_floor (S k) <? rate_floor k) &&
  (rate_floor (S k) =? 3 * rate_floor k / 4) &&
  float32.cast_defined
    (float32.mul (float32.of_uint32 (rate_floor k)) back_off_factor).

(** The check that the back-off of [m] is three quarters of [m] rounded
    down and that its cast is defined, and the check of all [m] below
    [n]. *)
Definition back_off_exact (m : Z) : bool :=
  (back_off m =? 3 * m / 4) &&
  float32.cast_defined
    (float32.mul (float32.of_uint32 m) back_off_factor).

Fixpoint back_off_exact_below (n : nat) : bool :=
  match n with
  | O => true
  | S n' => back_off_exact (Z.of_nat n') && back_off_exact_below n'
  end.



(** * Properties *)

(** ** Lists of checkpoints *)

Lemma back_None {A : Type} (l : list A) : back l = None <-> l = [].
Proof.
  induction l as [|x [|y l'] IH]; simpl in *; split; try congruence.
  - intros H. apply IH in H. discriminate.
Qed.

Lemma back_In {A : Type} (l : list A) (x : A) : back l = Some x -> In x l.
Proof.
  induction l as [|y [|z l'] IH]; simpl; intros H; try discriminate.
  - left. congruence.
  - right. apply IH. exact H.
Qed.

Lemma back_app_last {A : Type} (l : list A) (x : A) : back (l ++ [x]) = Some x.
Proof.
  induction l as [|y l' IH]; simpl; [reflexivity|].
  destruct (l' ++ [x]) eqn:E; [destruct l'; discriminate|exact IH].
Qed.

Lemma checkpoint_insert_In (c d : checkpoint) (l : list checkpoint) :
  In d (checkpoint_insert c l) <-> d = c \/ In d l.
Proof.
  induction l as [|e l' IH]; simpl.
  - intuition congruence.
  - destruct (height c <=? height e); simpl; rewrite ?IH; intuition congruence.
Qed.

Lemma checkpoint_sort_In (d : checkpoint) (l : list checkpoint) :
  In d (checkpoint_sort l) <-> In d l.
Proof.
  induction l as [|c l' IH]; simpl; [tauto|].
  rewrite checkpoint_insert_In, IH. intuition congruence.
Qed.

Lemma back_cons {A : Type} (x y : A) (l : list A) :
  back (x :: y :: l) = back (y :: l).
Proof. reflexivity. Qed.

Lemma checkpoint_insert_highest (c : checkpoint) (l : list checkpoint) :
  back_highest l -> back_highest (checkpoint_insert c l).
Proof.
  unfold back_highest. induction l as [|e l' IH]; intros Hl top Htop d Hd.
  - simpl in *. destruct Hd as [<-|[]]. injection Htop as <-. lia.
  - simpl in Htop, Hd. destruct (height c <=? height e) eqn:Hce.
    + rewrite back_cons in Htop.
      apply Z.leb_le in Hce.
      assert (He : height e <= height top)
        by (apply (Hl top Htop); left; reflexivity).
      destruct Hd as [<-|Hd]; [lia|]. apply (Hl top Htop). exact Hd.
    + apply Z.leb_gt in Hce.
      destruct l' as [|f l''].
      * simpl in *. injection Htop as <-.
        destruct Hd as [<-|[<-|[]]]; lia.
      * assert (Hl' : forall top0, back (f :: l'') = Some top0 ->
                  forall c0, In c0 (f :: l'') -> height c0 <= height top0).
        { intros top0 H0 c0 Hc0. apply (Hl top0).
          - rewrite back_cons. exact H0.
          - right. exact Hc0. }
        assert (Htop' : back (checkpoint_insert c (f :: l'')) = Some top).
        { destruct (checkpoint_insert c (f :: l'')) eqn:E.
          - simpl in E. destruct (height c <=? height f); discriminate.
          - exact Htop. }
        destruct Hd as [<-|Hd].
        -- destruct (back (f :: l'')) as [t|] eqn:Et.
           ++ assert (height e <= height t)
                by (apply (Hl t); [rewrite back_cons; exact Et|left; reflexivity]).
              assert (height t <= height top).
              { apply (IH Hl' top Htop').
                apply checkpoint_insert_In. right. apply back_In. exact Et. }
              lia.
           ++ apply back_None in Et. discriminate.
        -- apply (IH Hl' top Htop'). exact Hd.
Qed.

Lemma checkpoint_sort_highest (l : list checkpoint) :
  back_highest (checkpoint_sort l).
Proof.
  induction l as [|c l' IH]; simpl.
  - intros top H. discriminate.
  - apply checkpoint_insert_highest. exact IH.
Qed.

(** After the constructor's sort, [checkpoints_.back()] is a checkpoint of
    the configured list and no configured checkpoint is higher. *)
Lemma back_sorted_is_highest (l : list checkpoint) (top : checkpoint) :
  back (checkpoint_sort l) = Some top ->
  In top l /\ forall c, In c l -> height c <= height top.
Proof.
  intros H. split.
  - apply checkpoint_sort_In. apply back_In. exact H.
  - intros c Hc. apply (checkpoint_sort_highest l top H).
    apply checkpoint_sort_In. exact Hc.
Qed.

Lemma checkpoint_eqb_eq (a b : checkpoint) :
  checkpoint_eqb a b = true <-> a = b.
Proof.
  unfold checkpoint_eqb. destruct a as [ha na], b as [hb nb]; simpl.
  rewrite andb_true_iff, !Z.eqb_eq. split.
  - intros [-> ->]. reflexivity.
  - intros H. injection H as -> ->. split; reflexivity.
Qed.

Lemma checkpoint_above_Some (cps : list checkpoint) (bound : Z)
    (top : checkpoint) :
  checkpoint_above cps bound = Some top <->
  back cps = Some top /\ height top > bound.
Proof.
  unfold checkpoint_above. destruct (back cps) as [t|]; [|intuition congruence].
  destruct (height t >? bound) eqn:E.
  - apply Z.gtb_gt in E. split.
    + intros H. injection H as <-. split; [reflexivity|lia].
    + intros [H _]. exact H.
  - assert (~ height t > bound) by (rewrite Z.gtb_ltb in E; apply Z.ltb_ge in E; lia).
    split; [discriminate|]. intros [H1 H2]. injection H1 as <-. contradiction.
Qed.

Lemma checkpoint_above_None (cps : list checkpoint) (bound : Z) :
  checkpoint_above cps bound = None <->
  cps = [] \/ exists top, back cps = Some top /\ height top <= bound.
Proof.
  unfold checkpoint_above. destruct (back cps) as [t|] eqn:Eb.
  - destruct (height t >? bound) eqn:E.
    + apply Z.gtb_gt in E. split; [discriminate|].
      intros [->|[top [H1 H2]]]; [discriminate|].
      injection H1 as <-. lia.
    + rewrite Z.gtb_ltb in E. apply Z.ltb_ge in E. split; [|reflexivity].
      intros _. right. exists t. split; [reflexivity|lia].
  - apply back_None in Eb. tauto.
Qed.

(** ** size_t arithmetic *)

Lemma size_t_sub_exact (a : Z) :
  1 <= a <= size_t.max -> size_t.sub a 1 = a - 1.
Proof.
  unfold size_t.sub, size_t.max, size_t.modulus, size_t.bits. intros H.
  apply Z.mod_small. lia.
Qed.

Lemma size_t_add_exact (a : Z) :
  0 <= a < size_t.max -> size_t.add a 1 = a + 1.
Proof.
  unfold size_t.add, size_t.max, size_t.modulus, size_t.bits. intros H.
  apply Z.mod_small. lia.
Qed.

(** ** Range resolution *)

Lemma working_heights_gap (chain : fast_chain) (tip first_gap last_gap : Z) :
  get_gap_range chain = Some (first_gap, last_gap) ->
  working_heights chain tip = (size_t.sub first_gap 1, size_t.add last_gap 1).
Proof. intros H. unfold working_heights. rewrite H. reflexivity. Qed.

Lemma working_heights_no_gap (chain : fast_chain) (tip : Z) :
  get_gap_range chain = None -> working_heights chain tip = (tip, tip).
Proof. intros H. unfold working_heights. rewrite H. reflexivity. Qed.

(** The shape of a successful resolution: the seed is the stored header at
    the first working height; the stop is the selected checkpoint, or the
    stored header at the last working height. *)
Lemma get_range_success (chain : fast_chain) (cps : list checkpoint)
    (os ot seed stop : checkpoint) :
  get_range chain cps os ot = (success, seed, stop) ->
  exists tip first last,
    get_last_height chain = Some tip /\
    working_heights chain tip = (first, last) /\
    stored_checkpoint chain first = Some seed /\
    ((checkpoint_above cps last = Some stop) \/
     (checkpoint_above cps last = None /\
      stored_checkpoint chain last = Some stop)).
Proof.
  unfold get_range, stored_checkpoint.
  destruct (get_last_height chain) as [tip|]; [|discriminate].
  destruct (working_heights chain tip) as [first last] eqn:Ew.
  destruct (get_header chain first) as [fh|] eqn:Ef; [|discriminate].
  destruct (checkpoint_above cps last) as [top|] eqn:Ea.
  - intros H. injection H as <- <-.
    exists tip, first, last. rewrite Ef. repeat split; auto.
  - destruct (first =? last) eqn:Efl.
    + apply Z.eqb_eq in Efl. subst last. intros H. injection H as <- <-.
      exists tip, first, first. rewrite Ef. repeat split; auto.
    + destruct (get_header chain last) as [lh|] eqn:El; [|discriminate].
      intros H. injection H as <- <-.
      exists tip, first, last. rewrite Ef, El. repeat split; auto.
Qed.

(** On success both out parameters are assigned, whatever they held. *)
Lemma get_range_success_assigns (chain : fast_chain) (cps : list checkpoint)
    (os ot os' ot' seed stop : checkpoint) :
  get_range chain cps os ot = (success, seed, stop) ->
  get_range chain cps os' ot' = (success, seed, stop).
Proof.
  unfold get_range.
  destruct (get_last_height chain) as [tip|]; [|discriminate].
  destruct (working_heights chain tip) as [first last].
  destruct (get_header chain first) as [fh|]; [|discriminate].
  destruct (checkpoint_above cps last) as [top|]; [exact (fun H => H)|].
  destruct (first =? last); [exact (fun H => H)|].
  destruct (get_header chain last) as [lh|]; [exact (fun H => H)|discriminate].
Qed.

(** C10.  When [get_range] returns an error code the two out parameters
    hold what they held before the call; the code is [operation_failed]
    exactly when the last height cannot be read, and [not_found]
    otherwise. *)
Theorem get_range_error_keeps_outputs (chain : fast_chain)
    (cps : list checkpoint) (out_seed out_stop : checkpoint) (ec : code)
    (seed stop : checkpoint) :
  get_range chain cps out_seed out_stop = (ec, seed, stop) ->
  is_error ec = true ->
  seed = out_seed /\ stop = out_stop /\
  (ec = operation_failed \/ ec = not_found) /\
  (ec = operation_failed <-> get_last_height chain = None).
Proof.
  unfold get_range.
  destruct (get_last_height chain) as [tip|].
  - destruct (working_heights chain tip) as [first last].
    destruct (get_header chain first) as [fh|].
    + destruct (checkpoint_above cps last) as [top|].
      * intros H. injection H as <- <- <-. discriminate.
      * destruct (first =? last).
        -- intros H. injection H as <- <- <-. discriminate.
        -- destruct (get_header chain last) as [lh|].
           ++ intros H. injection H as <- <- <-. discriminate.
           ++ intros H _. injection H as <- <- <-.
              repeat split; auto; discriminate.
    + intros H _. injection H as <- <- <-.
      repeat split; auto; discriminate.
  - intros H _. injection H as <- <- <-. repeat split; auto.
Qed.

Lemma get_range_error_keeps_outputs_witness :
  let stale := {| hash := 77; height := 5 |} in
  default_checkpoint = default_checkpoint /\ stale = stale /\
  (operation_failed = operation_failed \/ operation_failed = not_found) /\
  (operation_failed = operation_failed <->
   get_last_height unreadable_chain = None).
Proof.
  intros stale.
  exact (get_range_error_keeps_outputs unreadable_chain []
           default_checkpoint stale operation_failed
           default_checkpoint stale eq_refl eq_refl).
Defined.

(** C4.  When the chain reports the gap [first_gap .. last_gap], the
    working bounds of [get_range] are [first_gap - 1] and [last_gap + 1] in
    [size_t] arithmetic (the integers themselves unless a subtraction from
    [0] or an addition to the largest [size_t] wraps); the resolution fails
    with [not_found] when no header is stored at the first bound and
    otherwise takes the seed from that header; and when the checkpoints are
    empty or do not reach above the last bound, the stop is the stored
    header at the last bound, not the tip. *)
Theorem get_range_fills_gap (chain : fast_chain) (cps : list checkpoint)
    (tip first_gap last_gap : Z) (out_seed out_stop : checkpoint) :
  get_last_height chain = Some tip ->
  get_gap_range chain = Some (first_gap, last_gap) ->
  let first_height := size_t.sub first_gap 1 in
  let last_height := size_t.add last_gap 1 in
  working_heights chain tip = (first_height, last_height) /\
  (1 <= first_gap <= size_t.max -> first_height = first_gap - 1) /\
  (0 <= last_gap < size_t.max -> last_height = last_gap + 1) /\
  (get_header chain first_height = None ->
     get_range chain cps out_seed out_stop = (not_found, out_seed, out_stop)) /\
  (forall seed stop,
     get_range chain cps out_seed out_stop = (success, seed, stop) ->
     stored_checkpoint chain first_height = Some seed /\
     height seed = first_height) /\
  (forall first_header last_header,
     get_header chain first_height = Some first_header ->
     get_header chain last_height = Some last_header ->
     cps = [] \/ (exists top, back cps = Some top /\
                              height top <= last_height) ->
     get_range chain cps out_seed out_stop
       = (success,
          {| hash := header_hash first_header; height := first_height |},
          {| hash := header_hash last_header; height := last_height |})).
Proof.
  intros Htip Hgap first_height last_height.
  pose proof (working_heights_gap chain tip first_gap last_gap Hgap) as Hw.
  fold first_height last_height in Hw.
  split; [exact Hw|].
  split; [apply size_t_sub_exact|]. split; [apply size_t_add_exact|].
  split; [|split].
  - intros Hnone. unfold get_range. rewrite Htip, Hw, Hnone. reflexivity.
  - intros seed stop Hrun.
    destruct (get_range_success _ _ _ _ _ _ Hrun)
      as (tip' & first & last & Ht & Hw' & Hseed & _).
    rewrite Htip in Ht. injection Ht as <-.
    rewrite Hw in Hw'. injection Hw' as <- <-.
    split; [exact Hseed|].
    unfold stored_checkpoint in Hseed.
    destruct (get_header chain first_height); [|discriminate].
    injection Hseed as <-. reflexivity.
  - intros fh lh Hf Hl Hcps.
    apply checkpoint_above_None in Hcps.
    unfold get_range. rewrite Htip, Hw, Hf, Hcps.
    destruct (first_height =? last_height) eqn:E.
    + apply Z.eqb_eq in E. rewrite E in Hf. rewrite Hf in Hl.
      injection Hl as <-. rewrite E. reflexivity.
    + rewrite Hl. reflexivity.
Qed.

Lemma get_range_fills_gap_witness :
  working_heights gap_chain 30 = (9, 21) /\
  get_range gap_chain [] default_checkpoint default_checkpoint
    = (success, {| hash := 1009; height := 9 |},
                {| hash := 1021; height := 21 |}).
Proof.
  destruct (get_range_fills_gap gap_chain [] 30 10 20
              default_checkpoint default_checkpoint eq_refl eq_refl)
    as (Hw & _ & _ & _ & _ & Hrun).
  split; [exact Hw|].
  exact (Hrun (Build_header 1009) (Build_header 1021) eq_refl eq_refl
           (or_introl eq_refl)).
Defined.

Lemma stored_checkpoint_height (chain : fast_chain) (h : Z) (c : checkpoint) :
  stored_checkpoint chain h = Some c -> height c = h.
Proof.
  unfold stored_checkpoint. destruct (get_header chain h); [|discriminate].
  intros H. injection H as <-. reflexivity.
Qed.

(** The claim C3 as it is written fails: the stop also equals the highest
    checkpoint when that checkpoint is the stored header at [last_gap + 1],
    whose height does not exceed [last_gap + 1]. *)
Lemma checkpoint_stop_counterexample :
  ~ (forall (chain : fast_chain) (configured : list checkpoint)
            (first_gap last_gap : Z) (top out_seed out_stop seed stop : checkpoint),
       get_gap_range chain = Some (first_gap, last_gap) ->
       back (checkpoint_sort configured) = Some top ->
       get_range chain (checkpoint_sort configured) out_seed out_stop
         = (success, seed, stop) ->
       (stop = top <-> height top > last_gap + 1)).
Proof.
  intros H.
  pose (cp := {| hash := 1021; height := 21 |}).
  assert (E : height cp > 20 + 1).
  { apply (H gap_chain [cp] 10 20 cp default_checkpoint default_checkpoint
             {| hash := 1009; height := 9 |} cp); reflexivity. }
  simpl in E. lia.
Qed.

(** C3, amended.  The test that selects the highest checkpoint compares its
    height with the last working height, which is [last_gap + 1] when a gap
    is reported and the tip otherwise.  When the height is above that
    bound the stop is the highest checkpoint; when it is not, the stop is
    the stored header at the bound.  So the stop equals the highest
    checkpoint exactly when its height exceeds the bound or it is the
    stored header at the bound. *)
Theorem get_range_checkpoint_stop (chain : fast_chain)
    (configured : list checkpoint) (tip first last : Z)
    (first_header : header) (top out_seed out_stop : checkpoint) :
  get_last_height chain = Some tip ->
  working_heights chain tip = (first, last) ->
  get_header chain first = Some first_header ->
  back (checkpoint_sort configured) = Some top ->
  (forall c, In c configured -> height c <= height top) /\
  (forall first_gap last_gap,
     get_gap_range chain = Some (first_gap, last_gap) ->
     last = size_t.add last_gap 1 /\
     (0 <= last_gap < size_t.max -> last = last_gap + 1)) /\
  (get_gap_range chain = None -> last = tip) /\
  (height top > last ->
     get_range chain (checkpoint_sort configured) out_seed out_stop
       = (success, {| hash := header_hash first_header; height := first |},
          top)) /\
  (forall seed stop,
     get_range chain (checkpoint_sort configured) out_seed out_stop
       = (success, seed, stop) ->
     (height top <= last -> stored_checkpoint chain last = Some stop) /\
     (stop = top <->
      height top > last \/ stored_checkpoint chain last = Some top)).
Proof.
  intros Htip Hw Hf Hback.
  split; [apply back_sorted_is_highest; exact Hback|].
  split; [|split; [|split]].
  - intros fg lg Hgap.
    rewrite (working_heights_gap chain tip fg lg Hgap) in Hw.
    injection Hw as <- <-. split; [reflexivity|].
    intros Hr. apply size_t_add_exact. exact Hr.
  - intros Hgap. rewrite (working_heights_no_gap chain tip Hgap) in Hw.
    injection Hw as <- <-. reflexivity.
  - intros Hgt.
    assert (Ha : checkpoint_above (checkpoint_sort configured) last = Some top)
      by (apply checkpoint_above_Some; split; assumption).
    unfold get_range. rewrite Htip, Hw, Hf, Ha. reflexivity.
  - intros seed stop Hrun.
    destruct (get_range_success _ _ _ _ _ _ Hrun)
      as (tip' & first' & last' & Ht & Hw' & Hseed & Hstop).
    rewrite Htip in Ht. injection Ht as <-.
    rewrite Hw in Hw'. injection Hw' as <- <-.
    destruct Hstop as [Ha|[Ha Hs]].
    + apply checkpoint_above_Some in Ha. destruct Ha as [Hb Hgt].
      rewrite Hback in Hb. injection Hb as <-.
      split; [lia|]. split; [left; exact Hgt|reflexivity].
    + split; [intros _; exact Hs|]. split.
      * intros ->. right. exact Hs.
      * intros [Hgt|Hs'].
        -- assert (Ha' : checkpoint_above (checkpoint_sort configured) last
                         = Some top)
             by (apply checkpoint_above_Some; split; assumption).
           congruence.
        -- congruence.
Qed.

Lemma get_range_checkpoint_stop_witness :
  let anchor := {| hash := 5; height := 500 |} in
  let configured :=
    [{| hash := 3; height := 300 |}; anchor; {| hash := 2; height := 200 |}] in
  get_range tip_chain (checkpoint_sort configured)
    default_checkpoint default_checkpoint
  = (success, {| hash := 1100; height := 100 |}, anchor).
Proof.
  intros anchor configured.
  destruct (get_range_checkpoint_stop tip_chain configured 100 100 100
              (Build_header 1100) anchor default_checkpoint default_checkpoint
              eq_refl eq_refl eq_refl eq_refl)
    as (_ & _ & _ & Hstop & _).
  apply Hstop. reflexivity.
Defined.

(** The claim C8 as it is written fails: [get_range] takes the gap as the
    chain reports it, and a reported gap whose first height is above its
    last puts the seed above the stop. *)
Lemma seed_above_stop_counterexample :
  ~ (forall (chain : fast_chain) (cps : list checkpoint)
            (out_seed out_stop seed stop : checkpoint),
       get_range chain cps out_seed out_stop = (success, seed, stop) ->
       height seed <= height stop /\
       (height seed = height stop <-> checkpoint_eqb seed stop = true)).
Proof.
  intros H.
  destruct (H inverted_gap_chain [] default_checkpoint default_checkpoint
              {| hash := 1019; height := 19 |}
              {| hash := 1011; height := 11 |} eq_refl) as [Hle _].
  simpl in Hle. lia.
Qed.

(** C8, amended.  On storage whose reported gap is well formed, a
    successful resolution returns a seed that is not above the stop, and
    the two heights are equal exactly when the seed is the stop, the
    already synced case of [initialize]. *)
Theorem get_range_seed_below_stop (chain : fast_chain)
    (cps : list checkpoint) (out_seed out_stop seed stop : checkpoint) :
  gap_well_formed chain ->
  get_range chain cps out_seed out_stop = (success, seed, stop) ->
  height seed <= height stop /\
  (height seed = height stop <-> checkpoint_eqb seed stop = true).
Proof.
  intros Hwf Hrun.
  destruct (get_range_success _ _ _ _ _ _ Hrun)
    as (tip & first & last & Ht & Hw & Hseed & Hstop).
  assert (Hle : first <= last).
  { unfold gap_well_formed in Hwf. unfold working_heights in Hw.
    destruct (get_gap_range chain) as [[fg lg]|].
    - destruct Hwf as (H1 & H2 & H3). injection Hw as <- <-.
      rewrite size_t_sub_exact, size_t_add_exact by lia. lia.
    - injection Hw as <- <-. lia. }
  pose proof (stored_checkpoint_height _ _ _ Hseed) as Hhs.
  destruct Hstop as [Ha|[Ha Hs]].
  - apply checkpoint_above_Some in Ha. destruct Ha as [_ Hgt].
    split; [lia|]. split; [lia|].
    intros E. apply checkpoint_eqb_eq in E. subst stop. lia.
  - pose proof (stored_checkpoint_height _ _ _ Hs) as Hht.
    split; [lia|]. split.
    + intros E. apply checkpoint_eqb_eq.
      assert (first = last) by lia. subst last. congruence.
    + intros E. apply checkpoint_eqb_eq in E. subst stop. reflexivity.
Qed.

Lemma get_range_seed_below_stop_witness :
  height {| hash := 1009; height := 9 |}
    <= height {| hash := 1021; height := 21 |} /\
  (height {| hash := 1009; height := 9 |}
     = height {| hash := 1021; height := 21 |} <->
   checkpoint_eqb {| hash := 1009; height := 9 |}
     {| hash := 1021; height := 21 |} = true).
Proof.
  assert (Hwf : gap_well_formed gap_chain).
  { unfold gap_well_formed. simpl. vm_compute.
    repeat split; discriminate. }
  exact (get_range_seed_below_stop gap_chain [] default_checkpoint
           default_checkpoint _ _ Hwf eq_refl).
Defined.

(** ** Runs of the session *)

Lemma set_last_id (s : session_header_sync) : set_last (last_ s) s = s.
Proof. destruct s. reflexivity. Qed.

Lemma run_app (c : config) (evs1 evs2 : list event) :
  run c (evs1 ++ evs2) =
  match run c evs1 with
  | None => None
  | Some (c1, out1) =>
      match run c1 evs2 with
      | None => None
      | Some (c2, out2) => Some (c2, out1 ++ out2)
      end
  end.
Proof.
  revert c. induction evs1 as [|ev evs1 IH]; intros c; simpl.
  - destruct (run c evs2) as [[c2 out2]|]; reflexivity.
  - destruct (step c ev) as [[c1 out1]|]; [|reflexivity].
    rewrite IH. destruct (run c1 evs1) as [[c1' out1']|]; [|reflexivity].
    destruct (run c1' evs2) as [[c2 out2]|]; [|reflexivity].
    rewrite app_assoc. reflexivity.
Qed.

(** A session with no callback registered makes no call any more: the
    environment can only stop it or report a stopped channel. *)
Lemma run_idle (evs : list event) (s : session_header_sync) (c : config)
    (out : list call) :
  run (None, s) evs = Some (c, out) ->
  out = [] /\ fst c = None /\ hashes_ (snd c) = hashes_ s /\
  minimum_rate_ (snd c) = minimum_rate_ s /\ last_ (snd c) = last_ s /\
  connectors_ (snd c) = connectors_ s.
Proof.
  revert s c out. induction evs as [|ev evs IH]; intros s c out; simpl.
  - intros H. injection H as <- <-. auto 10.
  - destruct ev as [ec|ec ch|ec|]; simpl; try discriminate.
    + destruct (run (None, s) evs) as [[c2 out2]|] eqn:E; [|discriminate].
      intros H. injection H as <- <-. apply IH in E. exact E.
    + destruct (run (None, set_stopped true s) evs) as [[c2 out2]|] eqn:E;
        [|discriminate].
      intros H. injection H as <- <-. apply IH in E. exact E.
Qed.

(** C5.  When the header queue is not empty, [initialize] invokes the
    handler once, with [operation_failed], returns [false] and leaves the
    session as it was; [handle_started] then returns without creating a
    connector, and whatever happens afterwards the only call of the whole
    start is that one handler call: the queue is not initialized and no
    connect is attempted. *)
Theorem initialize_rejects_used_queue (s : session_header_sync) :
  header_queue.empty (hashes_ s) = false ->
  initialize s = (false, s, [call_handler operation_failed]) /\
  handle_started success s = (None, s, [call_handler operation_failed]) /\
  (forall evs c out,
     run_session s (ev_result success :: evs) = Some (c, out) ->
     out = [call_handler operation_failed] /\
     handler_calls out = [operation_failed] /\
     connect_calls out = [] /\ connector_calls out = [] /\
     initialize_calls out = [] /\
     hashes_ (snd c) = hashes_ s).
Proof.
  intros Hq.
  assert (Hi : initialize s = (false, s, [call_handler operation_failed])).
  { unfold initialize, bind, get. rewrite Hq. reflexivity. }
  assert (Hs : handle_started success s
               = (None, s, [call_handler operation_failed])).
  { unfold handle_started, bind. simpl. rewrite Hi. reflexivity. }
  split; [exact Hi|]. split; [exact Hs|].
  intros evs c out. unfold run_session, start, ret. simpl.
  rewrite Hs.
  destruct (run (None, s) evs) as [[c2 out2]|] eqn:E; [|discriminate].
  intros H. injection H as <- <-.
  apply run_idle in E. destruct E as (-> & _ & Hh & _).
  repeat split; auto.
Qed.

Lemma initialize_rejects_used_queue_witness :
  let used := {| header_queue.first_height := 4;
                 header_queue.hashes := [1004; 1005] |} in
  let s := construct used gap_chain [] in
  initialize s = (false, s, [call_handler operation_failed]) /\
  run_session s [ev_result success; ev_stop]
    = Some ((None, set_stopped true s), [call_handler operation_failed]).
Proof.
  intros used s. split.
  - exact (proj1 (initialize_rejects_used_queue s eq_refl)).
  - reflexivity.
Defined.

(** C6.  When the queue is empty and the resolved seed is the stop,
    [initialize] invokes the handler once, with [success], and returns
    [false] having written the stop to [last_] only; [handle_started]
    returns without creating a connector, and the handler call is the only
    call of the whole start: the queue is never initialized, no connector
    is created and no connect is attempted. *)
Theorem initialize_already_synced (s : session_header_sync)
    (seed stop : checkpoint) :
  header_queue.empty (hashes_ s) = true ->
  get_range (chain_ s) (checkpoints_ s) default_checkpoint (last_ s)
    = (success, seed, stop) ->
  checkpoint_eqb seed stop = true ->
  initialize s = (false, set_last stop s, [call_handler success]) /\
  handle_started success s = (None, set_last stop s, [call_handler success]) /\
  (forall evs c out,
     run_session s (ev_result success :: evs) = Some (c, out) ->
     out = [call_handler success] /\
     handler_calls out = [success] /\
     connect_calls out = [] /\ connector_calls out = [] /\
     initialize_calls out = [] /\
     hashes_ (snd c) = hashes_ s /\
     connectors_ (snd c) = connectors_ s).
Proof.
  intros Hq Hrange Heq.
  assert (Hi : initialize s = (false, set_last stop s, [call_handler success])).
  { unfold initialize, bind, get. rewrite Hq. simpl. rewrite Hrange.
    simpl. rewrite Heq. reflexivity. }
  assert (Hs : handle_started success s
               = (None, set_last stop s, [call_handler success])).
  { unfold handle_started, bind. simpl. rewrite Hi. reflexivity. }
  split; [exact Hi|]. split; [exact Hs|].
  intros evs c out. unfold run_session, start, ret. simpl.
  rewrite Hs.
  destruct (run (None, set_last stop s) evs) as [[c2 out2]|] eqn:E;
    [|discriminate].
  intros H. injection H as <- <-.
  apply run_idle in E. destruct E as (-> & _ & Hh & _ & _ & Hc).
  repeat split; auto.
Qed.

Lemma initialize_already_synced_witness :
  let s := construct header_queue.fresh genesis_chain [] in
  let genesis := {| hash := 1000; height := 0 |} in
  initialize s = (false, set_last genesis s, [call_handler success]) /\
  run_session s [ev_result success]
    = Some ((None, set_last genesis s), [call_handler success]).
Proof.
  intros s genesis. split.
  - exact (proj1 (initialize_already_synced s genesis genesis
                    eq_refl eq_refl eq_refl)).
  - reflexivity.
Defined.

(** ** The retry loop *)

Lemma is_error_false (ec : code) : is_error ec = false <-> ec = success.
Proof. destruct ec; simpl; split; congruence. Qed.

Lemma new_connection_running (connect : connector) (s : session_header_sync) :
  stopped_ s = false ->
  new_connection connect s
  = (Some (cb_handle_connect connect), s, [call_connect connect]).
Proof. intros H. unfold new_connection, bind, get. rewrite H. reflexivity. Qed.

Lemma new_connection_stopped (connect : connector) (s : session_header_sync) :
  stopped_ s = true -> new_connection connect s = (None, s, []).
Proof. intros H. unfold new_connection, bind, get. rewrite H. reflexivity. Qed.

(** [new_connection] changes nothing in the session, never invokes the
    handler, and connects on the connector it was given or not at all. *)
Lemma new_connection_calls (connect : connector) (s : session_header_sync) :
  snd (fst (new_connection connect s)) = s /\
  handler_calls (snd (new_connection connect s)) = [] /\
  Forall (eq connect) (connect_calls (snd (new_connection connect s))) /\
  (fst (fst (new_connection connect s)) = None \/
   fst (fst (new_connection connect s)) = Some (cb_handle_connect connect)).
Proof.
  destruct (stopped_ s) eqn:E.
  - rewrite (new_connection_stopped connect s E). simpl. auto.
  - rewrite (new_connection_running connect s E). simpl. auto 6.
Qed.

Lemma handle_complete_failure (ec : code) (connect : connector)
    (s : session_header_sync) :
  is_error ec = true ->
  handle_complete ec connect s
  = new_connection connect (set_minimum_rate (back_off (minimum_rate_ s)) s).
Proof.
  intros H. unfold handle_complete. rewrite H. simpl.
  unfold bind, get, modify. simpl.
  destruct (new_connection connect
              (set_minimum_rate (back_off (minimum_rate_ s)) s))
    as [[p s'] out]. reflexivity.
Qed.

Lemma handle_complete_success (connect : connector) (s : session_header_sync) :
  handle_complete success connect s = (None, s, [call_handler success]).
Proof. reflexivity. Qed.

Lemma handle_connect_failure (ec : code) (ch : channel) (connect : connector)
    (s : session_header_sync) :
  is_error ec = true ->
  handle_connect ec ch connect s = new_connection connect s.
Proof. intros H. unfold handle_connect. rewrite H. reflexivity. Qed.

Lemma handle_channel_start_failure (ec : code) (connect : connector)
    (ch : channel) (s : session_header_sync) :
  is_error ec = true ->
  handle_channel_start ec connect ch s = handle_complete ec connect s.
Proof. intros H. unfold handle_channel_start. rewrite H. reflexivity. Qed.

Lemma attach_protocols_calls (ch : channel) (connect : connector)
    (s : session_header_sync) :
  exists ping,
    attach_protocols ch connect s
    = (Some (cb_handle_complete connect), s,
       [call_attach ping ch; call_attach protocol_address_31402 ch;
        call_attach (protocol_header_sync (minimum_rate_ s) (last_ s)) ch]).
Proof.
  unfold attach_protocols.
  destruct (negotiated_version ch >=? level.bip31);
    eexists; reflexivity.
Qed.

Lemma handler_calls_app (a b : list call) :
  handler_calls (a ++ b) = handler_calls a ++ handler_calls b.
Proof. apply flat_map_app. Qed.

Lemma connect_calls_app (a b : list call) :
  connect_calls (a ++ b) = connect_calls a ++ connect_calls b.
Proof. apply flat_map_app. Qed.

Lemma connector_calls_app (a b : list call) :
  connector_calls (a ++ b) = connector_calls a ++ connector_calls b.
Proof. apply flat_map_app. Qed.

(** One event inside the loop: the callbacks stay bound to the connector,
    the connector is the only one connected on, and the handler is invoked
    on a successful download only, after which no callback is left. *)
Lemma step_in_loop (connect : connector) (pending : option callback)
    (s : session_header_sync) (ev : event) (c : config) (out : list call) :
  bound_to connect pending ->
  step (pending, s) ev = Some (c, out) ->
  bound_to connect (fst c) /\
  Forall (eq connect) (connect_calls out) /\
  (handler_calls out = [] \/
   handler_calls out = [success] /\ fst c = None /\
   pending = Some (cb_handle_complete connect) /\ ev = ev_result success).
Proof.
  intros Hb. destruct ev as [ec|ec ch|ec|]; simpl.
  - destruct pending as [[|k|k ch|k]|]; simpl in *; try contradiction;
      try discriminate; subst k.
    + unfold handle_channel_start. destruct (is_error ec) eqn:E.
      * rewrite (handle_complete_failure ec connect s E).
        pose proof (new_connection_calls connect
          (set_minimum_rate (back_off (minimum_rate_ s)) s)) as (_ & H2 & H3 & H4).
        destruct (new_connection connect _) as [[p s'] o]. simpl in *.
        intros H. injection H as <- <-. simpl.
        repeat split; auto. destruct H4 as [->| ->]; simpl; auto.
      * destruct (attach_protocols_calls ch connect s) as [ping ->].
        intros H. injection H as <- <-. simpl. auto.
    + destruct (is_error ec) eqn:E.
      * rewrite (handle_complete_failure ec connect s E).
        pose proof (new_connection_calls connect
          (set_minimum_rate (back_off (minimum_rate_ s)) s)) as (_ & H2 & H3 & H4).
        destruct (new_connection connect _) as [[p s'] o]. simpl in *.
        intros H. injection H as <- <-. simpl.
        repeat split; auto. destruct H4 as [->| ->]; simpl; auto.
      * apply is_error_false in E. subst ec.
        rewrite handle_complete_success.
        intros H. injection H as <- <-. simpl. auto 8.
  - destruct pending as [[|k|k ch'|k]|]; simpl in *; try contradiction;
      try discriminate; subst k.
    unfold handle_connect. destruct (is_error ec) eqn:E.
    + pose proof (new_connection_calls connect s) as (_ & H2 & H3 & H4).
      destruct (new_connection connect s) as [[p s'] o]. simpl in *.
      intros H. injection H as <- <-. simpl.
      repeat split; auto. destruct H4 as [->| ->]; simpl; auto.
    + intros H. injection H as <- <-. simpl. auto.
  - intros H. injection H as <- <-. simpl. auto.
  - intros H. injection H as <- <-. simpl. auto.
Qed.

(** Any sequence of events inside the loop: the handler is invoked at most
    once, with [success], and then nothing is left registered; it is not
    invoked at all while no download has succeeded; every connect is on the
    one connector. *)
Lemma run_in_loop (connect : connector) (evs : list event)
    (pending : option callback) (s : session_header_sync) (c : config)
    (out : list call) :
  bound_to connect pending ->
  run (pending, s) evs = Some (c, out) ->
  Forall (eq connect) (connect_calls out) /\
  (handler_calls out = [] \/ handler_calls out = [success] /\ fst c = None) /\
  (~ In (ev_result success) evs -> handler_calls out = []).
Proof.
  revert pending s c out.
  induction evs as [|ev evs IH]; intros pending s c out Hb.
  - simpl. intros H. injection H as <- <-. simpl. auto.
  - cbn [run].
    destruct (step (pending, s) ev) as [[[p1 s1] out1]|] eqn:Es; [|discriminate].
    destruct (run (p1, s1) evs) as [[c2 out2]|] eqn:Er; [|discriminate].
    intros H. injection H as <- <-.
    destruct (step_in_loop connect pending s ev _ _ Hb Es) as (Hb1 & Hc1 & Hh1).
    simpl in Hb1.
    rewrite connect_calls_app, handler_calls_app.
    destruct Hh1 as [Hh1|(Hh1 & Hn & _ & Hev)].
    + destruct (IH _ _ _ _ Hb1 Er) as (Hc2 & Hh2 & Hno).
      split; [apply Forall_app; split; assumption|].
      rewrite Hh1. simpl. split; [exact Hh2|].
      intros Hnot. apply Hno. intros Hin. apply Hnot. right. exact Hin.
    + simpl in Hn. subst p1.
      destruct (run_idle _ _ _ _ Er) as (-> & Hn2 & _).
      split; [rewrite app_nil_r; exact Hc1|].
      rewrite Hh1. simpl. split; [right; auto|].
      intros Hnot. exfalso. apply Hnot. left. exact Hev.
Qed.





(** The start sequence on an empty queue and a range that is not yet
    synced: the queue is seeded, a connector is created and the first
    connect is made on it. *)
Lemma handle_started_connects (s : session_header_sync)
    (seed stop : checkpoint) :
  header_queue.empty (hashes_ s) = true ->
  stopped_ s = false ->
  get_range (chain_ s) (checkpoints_ s) default_checkpoint (last_ s)
    = (success, seed, stop) ->
  checkpoint_eqb seed stop = false ->
  handle_started success s
  = (Some (cb_handle_connect (connectors_ s)),
     set_connectors (S (connectors_ s))
       (set_hashes (header_queue.initialize seed (hashes_ s))
          (set_last stop s)),
     [call_hashes_initialize seed; call_create_connector (connectors_ s);
      call_connect (connectors_ s)]).
Proof.
  intros Hq Hs Hrange Hne.
  unfold handle_started, initialize, create_connector, new_connection,
    bind, get, modify, emit, ret. simpl.
  rewrite Hq. simpl. rewrite Hrange. simpl. rewrite Hne. simpl.
  rewrite Hs. reflexivity.
Qed.


(** A connect, a handshake and a download that succeed one after the
    other: the channel is registered, the protocols are attached with the
    session's rate and stop, and the handler is invoked with [success]. *)
Lemma run_connected (connect : connector) (ch : channel)
    (s : session_header_sync) :
  exists ping,
    run (Some (cb_handle_connect connect), s)
        [ev_connect success ch; ev_result success; ev_result success]
    = Some ((None, s),
            [call_register_channel ch; call_attach ping ch;
             call_attach protocol_address_31402 ch;
             call_attach (protocol_header_sync (minimum_rate_ s) (last_ s)) ch;
             call_handler success]).
Proof.
  unfold run, step, deliver, handle_connect, handle_channel_start,
    attach_protocols, handle_complete, handler, bind, emit, ret, get.
  simpl.
  destruct (negotiated_version ch >=? level.bip31); eexists; reflexivity.
Qed.


(** ** The minimum rate *)

Lemma rate_table : forallb rate_table_ok (seq 0 30) = true.
Proof. vm_compute. reflexivity. Qed.

Lemma rate_table_lt (k : nat) : (k < 30)%nat -> rate_table_ok k = true.
Proof.
  intros H. pose proof rate_table as T. rewrite forallb_forall in T.
  apply T. apply in_seq. lia.
Qed.

Lemma back_off_zero : back_off 0 = 0.
Proof. reflexivity. Qed.

Lemma rate_floor_succ (k : nat) : rate_floor (S k) = back_off (rate_floor k).
Proof. reflexivity. Qed.

Lemma rate_floor_zero (k : nat) : (30 <= k)%nat -> rate_floor k = 0.
Proof.
  induction 1 as [|k Hk IH].
  - vm_compute. reflexivity.
  - rewrite rate_floor_succ, IH. apply back_off_zero.
Qed.

Lemma rate_floor_truncates (k : nat) : rate_floor (S k) = 3 * rate_floor k / 4.
Proof.
  destruct (Nat.lt_ge_cases k 30) as [H|H].
  - pose proof (rate_table_lt k H) as T. unfold rate_table_ok in T.
    rewrite !andb_true_iff in T. destruct T as [[[_ _] T] _].
    apply Z.eqb_eq in T. exact T.
  - rewrite (rate_floor_zero (S k)) by lia. rewrite (rate_floor_zero k H). reflexivity.
Qed.

Lemma rate_floor_nonneg (k : nat) : 0 <= rate_floor k.
Proof.
  destruct (Nat.lt_ge_cases k 30) as [H|H].
  - pose proof (rate_table_lt k H) as T. unfold rate_table_ok in T.
    rewrite !andb_true_iff in T. destruct T as [[[T _] _] _].
    apply Z.ltb_lt in T. lia.
  - rewrite (rate_floor_zero k H). lia.
Qed.

Lemma float_value_factor : (float_value back_off_factor == 3 # 4)%Q.
Proof. vm_compute. reflexivity. Qed.

Lemma factor_power_succ (k : nat) :
  ((3 # 4) ^ Z.of_nat (S k) == (3 # 4) * (3 # 4) ^ Z.of_nat k)%Q.
Proof.
  rewrite Nat2Z.inj_succ. unfold Z.succ. rewrite Z.add_comm.
  rewrite Qpower_plus by discriminate. reflexivity.
Qed.

Lemma rate_floor_step_Q (k : nat) :
  (inject_Z (rate_floor (S k)) <= (3 # 4) * inject_Z (rate_floor k))%Q.
Proof.
  rewrite rate_floor_truncates.
  pose proof (rate_floor_nonneg k) as Hn.
  pose proof (Z.mul_div_le (3 * rate_floor k) 4 ltac:(lia)) as Hd.
  remember (3 * rate_floor k / 4) as q. remember (rate_floor k) as r.
  unfold Qle. cbn [Qnum Qden Qmult inject_Z Pos.mul]. lia.
Qed.

Lemma rate_floor_bound (k : nat) :
  (inject_Z (rate_floor k) <= inject_Z headers_per_second * (3 # 4) ^ Z.of_nat k)%Q.
Proof.
  induction k as [|k IH].
  - vm_compute. discriminate.
  - rewrite factor_power_succ. pose proof (rate_floor_step_Q k). 
    set (p := ((3 # 4) ^ Z.of_nat k)%Q) in *. 
    set (a := inject_Z (rate_floor (S k))) in *. set (b := inject_Z (rate_floor k)) in *.
    set (h := inject_Z headers_per_second) in *.
    lra.
Qed.

Lemma rate_floor_below (k : nat) : (3 <= k)%nat ->
  (inject_Z (rate_floor k) < inject_Z headers_per_second * (3 # 4) ^ Z.of_nat k)%Q.
Proof.
  induction 1 as [|k Hk IH].
  - vm_compute. reflexivity.
  - rewrite factor_power_succ. pose proof (rate_floor_step_Q k). 
    set (p := ((3 # 4) ^ Z.of_nat k)%Q) in *. 
    set (a := inject_Z (rate_floor (S k))) in *. set (b := inject_Z (rate_floor k)) in *.
    set (h := inject_Z headers_per_second) in *.
    lra.
Qed.

Lemma rate_floor_step_le (k : nat) : rate_floor (S k) <= rate_floor k.
Proof.
  rewrite rate_floor_truncates. pose proof (rate_floor_nonneg k).
  apply Z.div_le_upper_bound; lia.
Qed.

Lemma rate_floor_antitone (k j : nat) :
  (k <= j)%nat -> rate_floor j <= rate_floor k.
Proof.
  induction 1 as [|j Hj IH]; [lia|].
  pose proof (rate_floor_step_le j). lia.
Qed.

Lemma rate_cast_defined (k : nat) :
  float32.cast_defined
    (float32.mul (float32.of_uint32 (rate_floor k)) back_off_factor) = true.
Proof.
  destruct (Nat.lt_ge_cases k 30) as [H|H].
  - pose proof (rate_table_lt k H) as T. unfold rate_table_ok in T.
    rewrite !andb_true_iff in T. apply T.
  - rewrite (rate_floor_zero k H). reflexivity.
Qed.

Lemma after_failures_rate (k : nat) (ec : code) (connect : connector)
    (s : session_header_sync) :
  is_error ec = true ->
  minimum_rate_ (after_failures k ec connect s)
  = Nat.iter k back_off (minimum_rate_ s).
Proof.
  intros Hec. revert s. induction k as [|k IH]; intros s; [reflexivity|].
  cbn [after_failures].
  rewrite (handle_complete_failure ec connect s Hec).
  pose proof (new_connection_calls connect
                (set_minimum_rate (back_off (minimum_rate_ s)) s)) as (Hs & _).
  destruct (new_connection connect _) as [[p s'] out]. simpl in Hs. subst s'.
  rewrite IH. rewrite Nat.iter_succ_r. reflexivity.
Qed.

(** One event leaves the minimum rate as it is or backs it off once. *)
Lemma step_rate (pending : option callback) (s : session_header_sync)
    (ev : event) (c : config) (out : list call) :
  step (pending, s) ev = Some (c, out) ->
  minimum_rate_ (snd c) = minimum_rate_ s \/
  minimum_rate_ (snd c) = back_off (minimum_rate_ s).
Proof.
  assert (Hcomplete : forall ec k,
            minimum_rate_ (snd (fst (handle_complete ec k s))) = minimum_rate_ s \/
            minimum_rate_ (snd (fst (handle_complete ec k s)))
            = back_off (minimum_rate_ s)).
  { intros ec k. destruct (is_error ec) eqn:E.
    - rewrite (handle_complete_failure ec k s E).
      pose proof (new_connection_calls k
                    (set_minimum_rate (back_off (minimum_rate_ s)) s)) as (Hs & _).
      rewrite Hs. right. reflexivity.
    - apply is_error_false in E. subst ec. left. reflexivity. }
  destruct ev as [ec|ec ch|ec|]; simpl.
  - destruct pending as [[|k|k ch|k]|]; simpl; try discriminate.
    + unfold handle_started, initialize, create_connector, new_connection,
        handler, bind, get, modify, emit, ret.
      destruct (is_error ec); simpl.
      * intros H. injection H as <- <-. left. reflexivity.
      * destruct (header_queue.empty (hashes_ s)); simpl.
        -- destruct (get_range _ _ _ _) as [[e sd] st]. simpl.
           destruct (is_error e); simpl;
             [intros H; injection H as <- <-; left; reflexivity|].
           destruct (checkpoint_eqb sd st); simpl;
             [intros H; injection H as <- <-; left; reflexivity|].
           destruct (stopped_ s); simpl;
             intros H; injection H as <- <-; left; reflexivity.
        -- intros H. injection H as <- <-. left. reflexivity.
    + unfold handle_channel_start. destruct (is_error ec) eqn:E.
      * specialize (Hcomplete ec k).
        destruct (handle_complete ec k s) as [[p s'] o].
        intros H. injection H as <- <-. exact Hcomplete.
      * destruct (attach_protocols_calls ch k s) as [ping ->].
        intros H. injection H as <- <-. left. reflexivity.
    + specialize (Hcomplete ec k).
      destruct (handle_complete ec k s) as [[p s'] o].
      intros H. injection H as <- <-. exact Hcomplete.
  - destruct pending as [[|k|k ch'|k]|]; simpl; try discriminate.
    unfold handle_connect. destruct (is_error ec) eqn:E.
    + pose proof (new_connection_calls k s) as (Hs & _).
      destruct (new_connection k s) as [[p s'] o]. simpl in Hs. subst s'.
      intros H. injection H as <- <-. left. reflexivity.
    + intros H. injection H as <- <-. left. reflexivity.
  - intros H. injection H as <- <-. left. reflexivity.
  - intros H. injection H as <- <-. left. reflexivity.
Qed.

Lemma run_rate_floor (evs : list event) (c1 c2 : config) (out : list call)
    (k : nat) :
  minimum_rate_ (snd c1) = rate_floor k ->
  run c1 evs = Some (c2, out) ->
  exists j, (k <= j)%nat /\ minimum_rate_ (snd c2) = rate_floor j.
Proof.
  revert c1 c2 out k. induction evs as [|ev evs IH]; intros c1 c2 out k Hk.
  - simpl. intros H. injection H as <- <-. exists k. split; [lia|exact Hk].
  - cbn [run]. destruct c1 as [p s].
    destruct (step (p, s) ev) as [[c1' out1]|] eqn:Es; [|discriminate].
    destruct (run c1' evs) as [[c2' out2]|] eqn:Er; [|discriminate].
    intros H. injection H as <- <-.
    destruct (step_rate p s ev c1' out1 Es) as [Hr|Hr]; simpl in Hk.
    + destruct (IH c1' c2' out2 k (eq_trans Hr Hk) Er) as (j & Hj & Hjr).
      exists j. split; assumption.
    + assert (Hk' : minimum_rate_ (snd c1') = rate_floor (S k))
        by (rewrite Hr, Hk; reflexivity).
      destruct (IH c1' c2' out2 (S k) Hk' Er) as (j & Hj & Hjr).
      exists j. split; [lia|exact Hjr].
Qed.

(** The claim C2 as it is written fails: after the third failure the cast
    drops the fraction of [4218.75], and once the rate is [0] it stays
    [0]. *)
Lemma rate_floor_counterexample :
  let s := construct header_queue.fresh gap_chain [] in
  let rate := fun n => minimum_rate_ (after_failures n peer_timeout 0%nat s) in
  ~ (forall k : nat,
       (inject_Z (rate k)
        == inject_Z headers_per_second
           * float_value back_off_factor ^ Z.of_nat k)%Q) /\
  ~ (forall k : nat, rate (S k) < rate k).
Proof.
  intros s rate. split; intros H.
  - specialize (H 3%nat). vm_compute in H. discriminate.
  - specialize (H 30%nat). vm_compute in H. discriminate.
Qed.

(** C2, amended.  Each failed download replaces the minimum rate by three
    quarters of it, rounded down to an integer: starting from 10000 the
    rate is 7500 after one failure and 5625 after two, it equals
    [10000 * 0.75^k] for [k <= 2] and lies below it from the third failure
    on, it decreases strictly during the first 30 failures and is [0] from
    then on, and no event of the session ever increases it. *)
Theorem minimum_rate_decays (s : session_header_sync) (ec : code)
    (connect : connector) (k : nat) :
  is_error ec = true ->
  minimum_rate_ s = headers_per_second ->
  let rate := fun n => minimum_rate_ (after_failures n ec connect s) in
  let ideal := fun n : nat =>
    (inject_Z headers_per_second
     * float_value back_off_factor ^ Z.of_nat n)%Q in
  float32.ltb back_off_factor float32.one = true /\
  rate 1%nat = 7500 /\
  rate 2%nat = 5625 /\
  rate (S k) = 3 * rate k / 4 /\
  ((k <= 2)%nat -> (inject_Z (rate k) == ideal k)%Q) /\
  ((3 <= k)%nat -> (inject_Z (rate k) < ideal k)%Q) /\
  rate (S k) <= rate k /\
  ((k < 30)%nat -> rate (S k) < rate k) /\
  ((30 <= k)%nat -> rate k = 0) /\
  (forall evs1 evs2 c1 out1 c2 out2,
     run_session s evs1 = Some (c1, out1) ->
     run c1 evs2 = Some (c2, out2) ->
     minimum_rate_ (snd c2) <= minimum_rate_ (snd c1)).
Proof.
  intros Hec Hs rate ideal.
  assert (Hrate : forall n, rate n = rate_floor n).
  { intros n. unfold rate. rewrite (after_failures_rate n ec connect s Hec).
    rewrite Hs. reflexivity. }
  rewrite !Hrate.
  split; [reflexivity|]. split; [reflexivity|]. split; [reflexivity|].
  split; [apply rate_floor_truncates|].
  split; [|split; [|split; [|split; [|split]]]].
  - intros Hk.
    destruct k as [|[|[|k]]]; [vm_compute; reflexivity ..|lia].
  - intros Hk. unfold ideal. rewrite float_value_factor.
    apply rate_floor_below. exact Hk.
  - apply rate_floor_step_le.
  - intros Hk. pose proof (rate_table_lt k Hk) as T. unfold rate_table_ok in T.
    rewrite !andb_true_iff in T. destruct T as [[[_ T] _] _].
    apply Z.ltb_lt in T. exact T.
  - apply rate_floor_zero.
  - intros evs1 evs2 c1 out1 c2 out2. unfold run_session, start, ret.
    destruct (run (Some cb_handle_started, s) evs1) as [[c1' o1]|] eqn:E1;
      [|discriminate].
    intros H. injection H as <- <-. intros E2.
    destruct (run_rate_floor evs1 (Some cb_handle_started, s) _ _ 0%nat Hs E1)
      as (j1 & _ & Hj1).
    destruct (run_rate_floor evs2 _ _ _ j1 Hj1 E2) as (j2 & Hle & Hj2).
    rewrite Hj1, Hj2. apply rate_floor_antitone. exact Hle.
Qed.

Lemma minimum_rate_decays_witness :
  let s := construct header_queue.fresh gap_chain [] in
  let rate := fun n => minimum_rate_ (after_failures n peer_timeout 0%nat s) in
  rate 1%nat = 7500 /\ rate 2%nat = 5625 /\ rate 4%nat = 3 * rate 3%nat / 4.
Proof.
  intros s rate.
  destruct (minimum_rate_decays s peer_timeout 0%nat 3%nat eq_refl eq_refl)
    as (_ & H1 & H2 & H3 & _).
  split; [exact H1|]. split; [exact H2|exact H3].
Defined.

(** ** Failures of the retry loop *)


(** The claim C9 as it is written fails: a failed handshake is not handled
    as a failed connect is, it also backs the minimum rate off. *)
Lemma handshake_failure_counterexample :
  ~ (forall (ec : code) (connect : connector) (ch : channel)
            (s : session_header_sync),
       is_error ec = true ->
       handle_channel_start ec connect ch s = handle_connect ec ch connect s).
Proof.
  intros H.
  specialize (H peer_timeout 0%nat peer
                (construct header_queue.fresh gap_chain []) eq_refl).
  apply (f_equal (fun r => minimum_rate_ (snd (fst r)))) in H.
  vm_compute in H. discriminate.
Qed.

(** C9, amended.  A channel start that completes with a failure code is
    handled exactly as a failed download is: the minimum rate is backed
    off and [new_connection] is called on the same connector, without
    invoking the handler.  It registers the callback and makes the calls a
    failed connect would, and differs from it by the back-off only. *)
Theorem handshake_failure_retries (ec : code) (connect : connector)
    (ch : channel) (s : session_header_sync) :
  is_error ec = true ->
  handle_channel_start ec connect ch s = handle_complete ec connect s /\
  handle_channel_start ec connect ch s
  = new_connection connect (set_minimum_rate (back_off (minimum_rate_ s)) s) /\
  handler_calls (snd (handle_channel_start ec connect ch s)) = [] /\
  Forall (eq connect) (connect_calls (snd (handle_channel_start ec connect ch s))) /\
  fst (fst (handle_channel_start ec connect ch s))
  = fst (fst (handle_connect ec ch connect s)) /\
  snd (handle_channel_start ec connect ch s)
  = snd (handle_connect ec ch connect s) /\
  snd (fst (handle_channel_start ec connect ch s))
  = set_minimum_rate (back_off (minimum_rate_ s))
      (snd (fst (handle_connect ec ch connect s))) /\
  (stopped_ s = false ->
   handle_channel_start ec connect ch s
   = (Some (cb_handle_connect connect),
      set_minimum_rate (back_off (minimum_rate_ s)) s,
      [call_connect connect])).
Proof.
  intros Hec.
  rewrite (handle_channel_start_failure ec connect ch s Hec).
  rewrite (handle_complete_failure ec connect s Hec).
  rewrite (handle_connect_failure ec ch connect s Hec).
  split; [reflexivity|]. split; [reflexivity|].
  split; [apply new_connection_calls|].
  split; [apply new_connection_calls|].
  destruct (stopped_ s) eqn:Hs.
  - rewrite (new_connection_stopped connect s Hs).
    rewrite (new_connection_stopped connect
               (set_minimum_rate (back_off (minimum_rate_ s)) s) Hs).
    repeat split. discriminate.
  - rewrite (new_connection_running connect s Hs).
    rewrite (new_connection_running connect
               (set_minimum_rate (back_off (minimum_rate_ s)) s) Hs).
    repeat split.
Qed.

Lemma handshake_failure_retries_witness :
  let s := construct header_queue.fresh gap_chain [] in
  handle_channel_start peer_timeout 0%nat peer s
  = (Some (cb_handle_connect 0%nat), set_minimum_rate 7500 s,
     [call_connect 0%nat]).
Proof.
  intros s.
  exact (proj2 (proj2 (proj2 (proj2 (proj2 (proj2 (proj2
           (handshake_failure_retries peer_timeout 0%nat peer s eq_refl)))))))
           eq_refl).
Defined.

(** ** The stop signal *)

Lemma stops_recorded (ecs : list code) (st : executor.statics) :
  executor.stop_mutex st = true ->
  executor.stops ecs st = executor.returned st.
Proof.
  intros H. induction ecs as [|ec ecs IH]; [reflexivity|].
  cbn [executor.stops]. unfold executor.stop. rewrite H. exact IH.
Qed.

(** C7.  Of any sequence of calls of [stop], with whatever codes, the
    first records its code and each later one returns without effect and
    without throwing, [handle_stop] included; the waiter of [run] finds
    the code of the first call however many calls followed before or
    after it took the future, and a waiter that came before the first
    call is blocked until that call and then finds its code.  The promise
    hands its future out once, so that waiter is the only one. *)
Theorem stop_first_call_wins (first : code) (before after : list code)
    (retrieved : bool) :
  executor.stops (first :: before) executor.initial
    = executor.returned (executor.recorded first false) /\
  executor.stops (first :: before ++ after) executor.initial
    = executor.returned (executor.recorded first false) /\
  (forall ec,
     executor.stop ec (executor.recorded first retrieved)
     = executor.returned (executor.recorded first retrieved)) /\
  (forall signal,
     executor.handle_stop signal (executor.recorded first retrieved)
     = executor.returned (executor.recorded first retrieved)) /\
  executor.wait_for_stop (executor.recorded first false)
    = executor.returned (executor.recorded first true, Some first) /\
  executor.stops after (executor.recorded first true)
    = executor.returned (executor.recorded first true) /\
  executor.wait_for_stop (executor.recorded first true) = executor.thrown /\
  (exists waiting,
     executor.wait_for_stop executor.initial
       = executor.returned (waiting, None) /\
     executor.stops (first :: before) waiting
       = executor.returned (executor.recorded first true) /\
     executor.wait (executor.stopping_ (executor.recorded first true))
       = Some first).
Proof.
  split; [apply (stops_recorded before (executor.recorded first false));
          reflexivity|].
  split; [apply (stops_recorded (before ++ after)
                   (executor.recorded first false)); reflexivity|].
  split; [reflexivity|].
  split.
  { intros signal. unfold executor.handle_stop.
    destruct (signal =? executor.initialize_stop); reflexivity. }
  split; [reflexivity|].
  split; [apply stops_recorded; reflexivity|].
  split; [reflexivity|].
  eexists. split; [reflexivity|]. split; [|reflexivity].
  apply (stops_recorded before (executor.recorded first true)). reflexivity.
Qed.

(** * Further properties of the session *)

(** ** The start sequence *)

(** What [handle_started] can do: report a code to the handler and end, or
    seed the queue, create a connector and go to [new_connection]. *)
Lemma handle_started_cases (ec : code) (s : session_header_sync) :
  (exists e s',
     handle_started ec s = (None, s', [call_handler e]) /\
     hashes_ s' = hashes_ s /\ connectors_ s' = connectors_ s /\
     minimum_rate_ s' = minimum_rate_ s /\ stopped_ s' = stopped_ s) \/
  (exists seed stop,
     ec = success /\
     header_queue.empty (hashes_ s) = true /\
     get_range (chain_ s) (checkpoints_ s) default_checkpoint (last_ s)
       = (success, seed, stop) /\
     checkpoint_eqb seed stop = false /\
     let s' := set_connectors (S (connectors_ s))
                 (set_hashes (header_queue.initialize seed (hashes_ s))
                    (set_last stop s)) in
     handle_started ec s
     = (if stopped_ s then None else Some (cb_handle_connect (connectors_ s)),
        s',
        [call_hashes_initialize seed; call_create_connector (connectors_ s)]
        ++ (if stopped_ s then [] else [call_connect (connectors_ s)]))).
Proof.
  unfold handle_started, initialize, create_connector, new_connection,
    handler, bind, get, modify, emit, ret.
  destruct (is_error ec) eqn:Hec; simpl.
  - left. exists ec, s. auto.
  - apply is_error_false in Hec. subst ec.
    destruct (header_queue.empty (hashes_ s)) eqn:Hq; simpl.
    + destruct (get_range _ _ _ _) as [[e seed] stop] eqn:Hr. simpl.
      destruct (is_error e) eqn:He; simpl.
      * left. exists e, (set_last stop s). auto.
      * apply is_error_false in He. subst e.
        destruct (checkpoint_eqb seed stop) eqn:Hs; simpl.
        -- left. exists success, (set_last stop s). auto.
        -- right. exists seed, stop.
           destruct (stopped_ s); simpl; auto 6.
    + left. exists operation_failed, s. auto.
Qed.

(** A failed resolution leaves both out parameters alone. *)
Lemma get_range_failure_outputs (chain : fast_chain) (cps : list checkpoint)
    (os ot : checkpoint) (ec : code) (seed stop : checkpoint) :
  get_range chain cps os ot = (ec, seed, stop) ->
  is_error ec = true ->
  seed = os /\ stop = ot.
Proof.
  unfold get_range.
  destruct (get_last_height chain) as [tip|].
  - destruct (working_heights chain tip) as [first last].
    destruct (get_header chain first) as [fh|].
    + destruct (checkpoint_above cps last) as [top|].
      * intros H. injection H as <- <- <-. discriminate.
      * destruct (first =? last).
        -- intros H. injection H as <- <- <-. discriminate.
        -- destruct (get_header chain last) as [lh|];
             intros H; injection H as <- <- <-; [discriminate|auto].
    + intros H. injection H as <- <- <-. auto.
  - intros H. injection H as <- <- <-. auto.
Qed.

(** X1.  When the base session fails to start, or the range cannot be
    resolved, the code is handed to the handler and that is the only call
    of the whole start; nothing of the session object changes, whatever
    events follow: [last_] is not written, the queue is not initialized
    and no connector is created. *)
Theorem start_failure_surfaces (s : session_header_sync) (started : code)
    (evs : list event) (c : config) (out : list call) :
  let range := get_range (chain_ s) (checkpoints_ s) default_checkpoint
                 (last_ s) in
  let reported :=
    if is_error started then started
    else if header_queue.empty (hashes_ s) then fst (fst range)
    else operation_failed in
  is_error reported = true ->
  run_session s (ev_result started :: evs) = Some (c, out) ->
  handle_started started s = (None, s, [call_handler reported]) /\
  out = [call_handler reported] /\
  fst c = None /\
  hashes_ (snd c) = hashes_ s /\ last_ (snd c) = last_ s /\
  minimum_rate_ (snd c) = minimum_rate_ s /\
  connectors_ (snd c) = connectors_ s.
Proof.
  intros range reported Hrep.
  assert (Hs : handle_started started s = (None, s, [call_handler reported])).
  { unfold reported in *. unfold handle_started, initialize, handler, bind,
      get, modify, emit, ret.
    destruct (is_error started) eqn:Hst; simpl; [reflexivity|].
    destruct (header_queue.empty (hashes_ s)) eqn:Hq; simpl; [|reflexivity].
    unfold range in *.
    destruct (get_range _ _ _ _) as [[e seed] stop] eqn:Hr. simpl in *.
    rewrite Hrep. simpl.
    destruct (get_range_failure_outputs _ _ _ _ _ _ _ Hr Hrep) as (_ & ->).
    rewrite set_last_id. reflexivity. }
  unfold run_session, start, ret. cbn [run step deliver].
  rewrite Hs.
  destruct (run (None, s) evs) as [[c2 out2]|] eqn:E; [|discriminate].
  intros H. injection H as <- <-.
  destruct (run_idle _ _ _ _ E) as (-> & Hn & Hh & Hm & Hl & Hc).
  repeat split; auto.
Qed.

Lemma start_failure_surfaces_witness :
  let s := construct header_queue.fresh unreadable_chain [] in
  handle_started success s = (None, s, [call_handler operation_failed]) /\
  [call_handler operation_failed] = [call_handler operation_failed] /\
  fst (@None callback, set_stopped true s) = None /\
  hashes_ (set_stopped true s) = hashes_ s /\
  last_ (set_stopped true s) = last_ s /\
  minimum_rate_ (set_stopped true s) = minimum_rate_ s /\
  connectors_ (set_stopped true s) = connectors_ s.
Proof.
  intros s.
  exact (start_failure_surfaces s success [ev_stop]
           (None, set_stopped true s) [call_handler operation_failed]
           eq_refl eq_refl).
Defined.

(** X2.  The first attempt of a session that has something to download:
    the queue is seeded with the resolved seed, then one connector is
    created and connected, the channel is registered, and after the
    handshake the ping, address and header sync protocols are attached in
    that order, the header sync protocol with the session's minimum rate
    and the resolved stop; the handler has not been called and the
    download's completion is awaited. *)
Theorem first_attempt_trace (s : session_header_sync) (seed stop : checkpoint)
    (ch : channel) :
  header_queue.empty (hashes_ s) = true ->
  stopped_ s = false ->
  get_range (chain_ s) (checkpoints_ s) default_checkpoint (last_ s)
    = (success, seed, stop) ->
  checkpoint_eqb seed stop = false ->
  let k := connectors_ s in
  let ping := if negotiated_version ch >=? level.bip31
              then protocol_ping_60001 else protocol_ping_31402 in
  exists final,
    run_session s [ev_result success; ev_connect success ch; ev_result success]
    = Some ((Some (cb_handle_complete k), final),
            [call_hashes_initialize seed; call_create_connector k;
             call_connect k; call_register_channel ch;
             call_attach ping ch; call_attach protocol_address_31402 ch;
             call_attach (protocol_header_sync (minimum_rate_ s) stop) ch]) /\
    hashes_ final = header_queue.initialize seed (hashes_ s) /\
    last_ final = stop /\
    minimum_rate_ final = minimum_rate_ s /\
    connectors_ final = S k.
Proof.
  intros Hq Hs Hrange Hne k ping.
  unfold run_session, start, ret. cbn [run step deliver].
  rewrite (handle_started_connects s seed stop Hq Hs Hrange Hne).
  unfold step, deliver, handle_connect, handle_channel_start,
    attach_protocols, bind, emit, ret, get.
  simpl. unfold ping.
  destruct (negotiated_version ch >=? level.bip31);
    eexists; (split; [reflexivity|]); repeat split.
Qed.

Lemma first_attempt_trace_witness :
  let s := construct header_queue.fresh gap_chain [] in
  exists final,
    run_session s [ev_result success; ev_connect success peer; ev_result success]
    = Some ((Some (cb_handle_complete 0%nat), final),
            [call_hashes_initialize {| hash := 1009; height := 9 |};
             call_create_connector 0%nat; call_connect 0%nat;
             call_register_channel peer;
             call_attach protocol_ping_60001 peer;
             call_attach protocol_address_31402 peer;
             call_attach
               (protocol_header_sync 10000 {| hash := 1021; height := 21 |})
               peer]) /\
    hashes_ final
    = header_queue.initialize {| hash := 1009; height := 9 |}
        header_queue.fresh /\
    last_ final = {| hash := 1021; height := 21 |} /\
    minimum_rate_ final = 10000 /\
    connectors_ final = 1%nat.
Proof.
  intros s.
  exact (first_attempt_trace s {| hash := 1009; height := 9 |}
           {| hash := 1021; height := 21 |} peer
           eq_refl eq_refl eq_refl eq_refl).
Defined.

(** ** Suspension *)

(** No member function lowers [stopped()], and a stopped session makes no
    connect. *)
Lemma step_stopped (pending : option callback) (s : session_header_sync)
    (ev : event) (c : config) (out : list call) :
  stopped_ s = true ->
  step (pending, s) ev = Some (c, out) ->
  stopped_ (snd c) = true /\ connect_calls out = [].
Proof.
  intros Hs.
  assert (Hnew : forall k s0, stopped_ s0 = true ->
            new_connection k s0 = (None, s0, []))
    by (intros; apply new_connection_stopped; assumption).
  destruct ev as [ec|ec ch|ec|]; simpl.
  - destruct pending as [[|k|k ch|k]|]; simpl; try discriminate.
    + destruct (handle_started_cases ec s)
        as [(e & s' & -> & _ & _ & _ & Hst)|(seed & stop & _ & _ & _ & _ & ->)].
      * intros H. injection H as <- <-. simpl. split; [congruence|reflexivity].
      * rewrite Hs. intros H. injection H as <- <-. simpl. auto.
    + unfold handle_channel_start. destruct (is_error ec) eqn:E.
      * rewrite (handle_complete_failure ec k s E).
        rewrite Hnew by exact Hs.
        intros H. injection H as <- <-. simpl. auto.
      * destruct (attach_protocols_calls ch k s) as [ping ->].
        intros H. injection H as <- <-. simpl. auto.
    + destruct (is_error ec) eqn:E.
      * rewrite (handle_complete_failure ec k s E).
        rewrite Hnew by exact Hs.
        intros H. injection H as <- <-. simpl. auto.
      * apply is_error_false in E. subst ec. rewrite handle_complete_success.
        intros H. injection H as <- <-. simpl. auto.
  - destruct pending as [[|k|k ch'|k]|]; simpl; try discriminate.
    unfold handle_connect. destruct (is_error ec) eqn:E.
    + rewrite Hnew by exact Hs. intros H. injection H as <- <-. simpl. auto.
    + intros H. injection H as <- <-. simpl. auto.
  - intros H. injection H as <- <-. simpl. auto.
  - intros H. injection H as <- <-. simpl. auto.
Qed.

Lemma run_stopped (evs : list event) (c1 c2 : config) (out : list call) :
  stopped_ (snd c1) = true ->
  run c1 evs = Some (c2, out) ->
  stopped_ (snd c2) = true /\ connect_calls out = [].
Proof.
  revert c1 c2 out. induction evs as [|ev evs IH]; intros c1 c2 out Hs.
  - simpl. intros H. injection H as <- <-. auto.
  - cbn [run]. destruct c1 as [p s].
    destruct (step (p, s) ev) as [[c1' out1]|] eqn:Es; [|discriminate].
    destruct (run c1' evs) as [[c2' out2]|] eqn:Er; [|discriminate].
    intros H. injection H as <- <-.
    destruct (step_stopped p s ev c1' out1 Hs Es) as (Hs1 & Ho1).
    destruct (IH c1' c2' out2 Hs1 Er) as (Hs2 & Ho2).
    rewrite connect_calls_app, Ho1, Ho2. auto.
Qed.

(** X3.  Once the session is stopped no connect is attempted any more,
    whatever the network layer reports afterwards, and [stopped()] stays
    raised: the connects of a run are those made before the stop. *)
Theorem stop_suspends_loop (s : session_header_sync)
    (before after : list event) (c : config) (out : list call) :
  run_session s (before ++ ev_stop :: after) = Some (c, out) ->
  exists c1 out1,
    run_session s before = Some (c1, out1) /\
    connect_calls out = connect_calls out1 /\
    stopped_ (snd c) = true.
Proof.
  unfold run_session, start, ret. rewrite run_app.
  destruct (run (Some cb_handle_started, s) before) as [[[p1 s1] out1]|];
    [|discriminate].
  cbn [run step].
  destruct (run (p1, set_stopped true s1) after) as [[c2 out2]|] eqn:E;
    [|discriminate].
  intros H. injection H as <- <-.
  destruct (run_stopped after (p1, set_stopped true s1) c2 out2 eq_refl E)
    as (Hs & Ho).
  exists (p1, s1), out1. split; [reflexivity|].
  cbn [app]. rewrite connect_calls_app, Ho, app_nil_r. auto.
Qed.

Lemma stop_suspends_loop_witness :
  let s := construct header_queue.fresh gap_chain [] in
  let before := [ev_result success; ev_connect peer_timeout peer] in
  let after := [ev_connect peer_timeout peer] in
  exists c out,
    run_session s (before ++ ev_stop :: after) = Some (c, out) /\
    fst c = None /\
    exists c1 out1,
      run_session s before = Some (c1, out1) /\
      connect_calls out = connect_calls out1 /\
      stopped_ (snd c) = true.
Proof.
  intros s before after. eexists. eexists.
  split; [reflexivity|]. split; [reflexivity|].
  apply (stop_suspends_loop s before after). reflexivity.
Defined.

(** ** The rate handed to the download protocol *)

Lemma attach_rates_app (a b : list call) :
  attach_rates (a ++ b) = attach_rates a ++ attach_rates b.
Proof. apply flat_map_app. Qed.

Lemma descending_weaken (l : list Z) (low high : Z) :
  low <= high -> descending low l -> descending high l.
Proof.
  destruct l as [|r l]; simpl; [auto|]. intros H [H1 H2]. split; [lia|exact H2].
Qed.

(** What [attach_protocols] attaches, in order. *)
Lemma attach_protocols_trace (ch : channel) (connect : connector)
    (s : session_header_sync) :
  attach_protocols ch connect s
  = (Some (cb_handle_complete connect), s,
     [call_attach (if negotiated_version ch >=? level.bip31
                   then protocol_ping_60001 else protocol_ping_31402) ch;
      call_attach protocol_address_31402 ch;
      call_attach (protocol_header_sync (minimum_rate_ s) (last_ s)) ch]).
Proof.
  unfold attach_protocols.
  destruct (negotiated_version ch >=? level.bip31); reflexivity.
Qed.

(** One event attaches the header sync protocol at most once, with the
    minimum rate the session has before and after the event. *)
Lemma step_attach_rate (pending : option callback) (s : session_header_sync)
    (ev : event) (c : config) (out : list call) :
  step (pending, s) ev = Some (c, out) ->
  attach_rates out = [] \/
  attach_rates out = [minimum_rate_ s] /\
  minimum_rate_ (snd c) = minimum_rate_ s.
Proof.
  destruct ev as [ec|ec ch|ec|]; simpl.
  - destruct pending as [[|k|k ch|k]|]; simpl; try discriminate.
    + destruct (handle_started_cases ec s)
        as [(e & s' & -> & _)|(seed & stop & _ & _ & _ & _ & ->)];
        intros H; injection H as <- <-; left.
      * reflexivity.
      * destruct (stopped_ s); reflexivity.
    + unfold handle_channel_start. destruct (is_error ec) eqn:E.
      * rewrite (handle_complete_failure ec k s E).
        pose proof (new_connection_calls k
          (set_minimum_rate (back_off (minimum_rate_ s)) s)) as (_ & _ & _ & H4).
        destruct (stopped_ s) eqn:Hs.
        -- rewrite new_connection_stopped by exact Hs.
           intros H. injection H as <- <-. left. reflexivity.
        -- rewrite new_connection_running by exact Hs.
           intros H. injection H as <- <-. left. reflexivity.
      * rewrite attach_protocols_trace.
        intros H. injection H as <- <-. right.
        destruct (negotiated_version ch >=? level.bip31); simpl; auto.
    + destruct (is_error ec) eqn:E.
      * rewrite (handle_complete_failure ec k s E).
        destruct (stopped_ s) eqn:Hs.
        -- rewrite new_connection_stopped by exact Hs.
           intros H. injection H as <- <-. left. reflexivity.
        -- rewrite new_connection_running by exact Hs.
           intros H. injection H as <- <-. left. reflexivity.
      * apply is_error_false in E. subst ec. rewrite handle_complete_success.
        intros H. injection H as <- <-. left. reflexivity.
  - destruct pending as [[|k|k ch'|k]|]; simpl; try discriminate.
    unfold handle_connect. destruct (is_error ec) eqn:E.
    + destruct (stopped_ s) eqn:Hs.
      * rewrite new_connection_stopped by exact Hs.
        intros H. injection H as <- <-. left. reflexivity.
      * rewrite new_connection_running by exact Hs.
        intros H. injection H as <- <-. left. reflexivity.
    + intros H. injection H as <- <-. left. reflexivity.
  - intros H. injection H as <- <-. left. reflexivity.
  - intros H. injection H as <- <-. left. reflexivity.
Qed.

Lemma run_attach_rates (evs : list event) (c1 c2 : config) (out : list call)
    (k : nat) :
  minimum_rate_ (snd c1) = rate_floor k ->
  run c1 evs = Some (c2, out) ->
  descending (minimum_rate_ (snd c1)) (attach_rates out) /\
  Forall (fun r => exists j, (k <= j)%nat /\ r = rate_floor j)
         (attach_rates out).
Proof.
  revert c1 c2 out k. induction evs as [|ev evs IH]; intros c1 c2 out k Hk.
  - simpl. intros H. injection H as <- <-. simpl. auto.
  - cbn [run]. destruct c1 as [p s].
    destruct (step (p, s) ev) as [[c1' out1]|] eqn:Es; [|discriminate].
    destruct (run c1' evs) as [[c2' out2]|] eqn:Er; [|discriminate].
    intros H. injection H as <- <-. simpl in Hk. cbn [snd].
    rewrite attach_rates_app.
    destruct (run_rate_floor [ev] (p, s) c1' (out1 ++ []) k Hk) as (k' & Hkk & Hk').
    { cbn [run]. rewrite Es. reflexivity. }
    destruct (IH c1' c2' out2 k' Hk' Er) as (Hd & Hf).
    assert (Hf' : Forall (fun r => exists j, (k <= j)%nat /\ r = rate_floor j)
                    (attach_rates out2)).
    { eapply Forall_impl; [|exact Hf].
      intros r (j & Hj & ->). exists j. split; [lia|reflexivity]. }
    assert (Hle : minimum_rate_ (snd c1') <= minimum_rate_ s)
      by (rewrite Hk', Hk; apply rate_floor_antitone; exact Hkk).
    destruct (step_attach_rate p s ev c1' out1 Es) as [->|[-> Heq]].
    + simpl. split; [|exact Hf'].
      apply (descending_weaken _ _ _ Hle). exact Hd.
    + simpl. split.
      * split; [lia|]. rewrite <- Heq. exact Hd.
      * constructor; [|exact Hf']. exists k. split; [lia|exact Hk].
Qed.

(** X4.  Every header sync protocol a session attaches is constructed
    with a minimum rate that the back-off reaches from 10000, and no
    attachment gets a higher rate than the one before it: no attempt
    starts above the floor the previous attempt ended at. *)
Theorem attached_rates_descend (s : session_header_sync) (evs : list event)
    (c : config) (out : list call) :
  minimum_rate_ s = headers_per_second ->
  run_session s evs = Some (c, out) ->
  descending headers_per_second (attach_rates out) /\
  Forall (fun r => exists j, r = rate_floor j /\ 0 <= r <= headers_per_second)
         (attach_rates out).
Proof.
  intros Hs. unfold run_session, start, ret.
  destruct (run (Some cb_handle_started, s) evs) as [[c2 out2]|] eqn:E;
    [|discriminate].
  intros H. injection H as <- <-. cbn [app].
  destruct (run_attach_rates evs (Some cb_handle_started, s) c2 out2 0%nat Hs E)
    as (Hd & Hf).
  cbn [snd] in Hd. rewrite Hs in Hd. split; [exact Hd|].
  eapply Forall_impl; [|exact Hf].
  intros r (j & _ & ->). exists j. split; [reflexivity|]. split.
  - apply rate_floor_nonneg.
  - apply (rate_floor_antitone 0 j). lia.
Qed.

Lemma attached_rates_descend_witness :
  let s := construct header_queue.fresh gap_chain [] in
  exists c out,
    run_session s (ev_result success :: attempt peer peer_timeout
                   ++ attempt peer not_found ++ attempt peer success)
      = Some (c, out) /\
    attach_rates out = [10000; 7500; 5625] /\
    handler_calls out = [success] /\
    descending headers_per_second (attach_rates out).
Proof.
  intros s. eexists. eexists.
  split; [reflexivity|]. split; [reflexivity|]. split; [reflexivity|].
  refine (proj1 (attached_rates_descend s
                   (ev_result success :: attempt peer peer_timeout
                    ++ attempt peer not_found ++ attempt peer success)
                   _ _ eq_refl eq_refl)).
Defined.

(** ** The calls of a whole session *)

Lemma initialize_calls_app (a b : list call) :
  initialize_calls (a ++ b) = initialize_calls a ++ initialize_calls b.
Proof. apply flat_map_app. Qed.

(** Inside the loop nothing is created or seeded any more. *)
Lemma step_in_loop_creates_nothing (connect : connector)
    (pending : option callback) (s : session_header_sync) (ev : event)
    (c : config) (out : list call) :
  bound_to connect pending ->
  step (pending, s) ev = Some (c, out) ->
  connector_calls out = [] /\ initialize_calls out = [] /\
  hashes_ (snd c) = hashes_ s /\ last_ (snd c) = last_ s /\
  connectors_ (snd c) = connectors_ s.
Proof.
  intros Hb.
  assert (Hcomplete : forall ec k p s' o,
            handle_complete ec k s = (p, s', o) ->
            connector_calls o = [] /\ initialize_calls o = [] /\
            hashes_ s' = hashes_ s /\ last_ s' = last_ s /\
            connectors_ s' = connectors_ s).
  { intros ec k p s' o. destruct (is_error ec) eqn:E.
    - rewrite (handle_complete_failure ec k s E).
      destruct (stopped_ s) eqn:Hs.
      + rewrite new_connection_stopped by exact Hs.
        intros H. injection H as <- <- <-. simpl. auto.
      + rewrite new_connection_running by exact Hs.
        intros H. injection H as <- <- <-. simpl. auto.
    - apply is_error_false in E. subst ec. rewrite handle_complete_success.
      intros H. injection H as <- <- <-. simpl. auto. }
  destruct ev as [ec|ec ch|ec|]; simpl.
  - destruct pending as [[|k|k ch|k]|]; simpl in *; try contradiction;
      try discriminate.
    + unfold handle_channel_start. destruct (is_error ec) eqn:E.
      * destruct (handle_complete ec k s) as [[p s'] o] eqn:Ec.
        intros H. injection H as <- <-. apply (Hcomplete _ _ _ _ _ Ec).
      * rewrite attach_protocols_trace.
        intros H. injection H as <- <-.
        destruct (negotiated_version ch >=? level.bip31); simpl; auto.
    + destruct (handle_complete ec k s) as [[p s'] o] eqn:Ec.
      intros H. injection H as <- <-. apply (Hcomplete _ _ _ _ _ Ec).
  - destruct pending as [[|k|k ch'|k]|]; simpl in *; try contradiction;
      try discriminate.
    unfold handle_connect. destruct (is_error ec) eqn:E.
    + destruct (stopped_ s) eqn:Hs.
      * rewrite new_connection_stopped by exact Hs.
        intros H. injection H as <- <-. simpl. auto.
      * rewrite new_connection_running by exact Hs.
        intros H. injection H as <- <-. simpl. auto.
    + intros H. injection H as <- <-. simpl. auto.
  - intros H. injection H as <- <-. simpl. auto.
  - intros H. injection H as <- <-. simpl. auto.
Qed.

Lemma run_in_loop_creates_nothing (connect : connector) (evs : list event)
    (pending : option callback) (s : session_header_sync) (c : config)
    (out : list call) :
  bound_to connect pending ->
  run (pending, s) evs = Some (c, out) ->
  connector_calls out = [] /\ initialize_calls out = [] /\
  hashes_ (snd c) = hashes_ s /\ last_ (snd c) = last_ s.
Proof.
  revert pending s c out.
  induction evs as [|ev evs IH]; intros pending s c out Hb.
  - simpl. intros H. injection H as <- <-. simpl. auto.
  - cbn [run].
    destruct (step (pending, s) ev) as [[[p1 s1] out1]|] eqn:Es; [|discriminate].
    destruct (run (p1, s1) evs) as [[c2 out2]|] eqn:Er; [|discriminate].
    intros H. injection H as <- <-.
    destruct (step_in_loop connect pending s ev _ _ Hb Es) as (Hb1 & _).
    destruct (step_in_loop_creates_nothing connect pending s ev _ _ Hb Es)
      as (H1 & H2 & H3 & H4 & _).
    destruct (IH _ _ _ _ Hb1 Er) as (H1' & H2' & H3' & H4').
    simpl in *.
    rewrite connector_calls_app, initialize_calls_app, H1, H2, H1', H2'.
    repeat split; congruence.
Qed.

(** The calls of a run that begins with the start sequence: none, or one
    report to the handler, or the seeding of the queue, then the creation
    of the connector, then the loop on that connector. *)
Lemma run_from_start (evs : list event) (s : session_header_sync)
    (c : config) (out : list call) :
  run (Some cb_handle_started, s) evs = Some (c, out) ->
  out = [] /\ fst c = Some cb_handle_started /\ hashes_ (snd c) = hashes_ s \/
  (exists e, out = [call_handler e] /\ fst c = None /\
             hashes_ (snd c) = hashes_ s) \/
  (exists seed rest,
     out = call_hashes_initialize seed
           :: call_create_connector (connectors_ s) :: rest /\
     initialize_calls rest = [] /\
     connector_calls rest = [] /\
     Forall (eq (connectors_ s)) (connect_calls rest) /\
     (handler_calls rest = [] \/
      handler_calls rest = [success] /\ fst c = None) /\
     hashes_ (snd c) = header_queue.initialize seed (hashes_ s)).
Proof.
  revert s c out. induction evs as [|ev evs IH]; intros s c out.
  - simpl. intros H. injection H as <- <-. left. auto.
  - cbn [run].
    destruct ev as [ec|ec ch|ec|];
      cbn [step deliver handle_channel_stop ret]; try discriminate.
    + destruct (handle_started_cases ec s)
        as [(e & s' & -> & Hh & _)
           |(seed & stop & _ & _ & _ & _ & ->)].
      * destruct (run (None, s') evs) as [[c2 out2]|] eqn:Er; [|discriminate].
        intros H. injection H as <- <-.
        destruct (run_idle _ _ _ _ Er) as (-> & Hn & Hq & _).
        right. left. exists e. repeat split; congruence.
      * set (k := connectors_ s).
        set (s1 := set_connectors (S k) _).
        destruct (stopped_ s) eqn:Hs.
        -- destruct (run (None, s1) evs) as [[c2 out2]|] eqn:Er;
             [|discriminate].
           intros H. injection H as <- <-.
           destruct (run_idle _ _ _ _ Er) as (-> & Hn & Hq & _).
           right. right. exists seed, []. simpl. repeat split; auto.
        -- destruct (run (Some (cb_handle_connect k), s1) evs)
             as [[c2 out2]|] eqn:Er; [|discriminate].
           intros H. injection H as <- <-.
           destruct (run_in_loop k evs (Some (cb_handle_connect k)) s1 c2 out2
                       eq_refl Er)
             as (Hc & Hh & _).
           destruct (run_in_loop_creates_nothing k evs
                       (Some (cb_handle_connect k)) s1 c2 out2 eq_refl Er)
             as (H1 & H2 & H3 & _).
           right. right. exists seed, (call_connect k :: out2).
           split; [reflexivity|].
           change (call_connect k :: out2) with ([call_connect k] ++ out2).
           rewrite handler_calls_app, initialize_calls_app,
             connector_calls_app, connect_calls_app, H1, H2.
           cbn [handler_calls initialize_calls connector_calls connect_calls
                flat_map app].
           repeat split; auto.
    + destruct (run (Some cb_handle_started, s) evs) as [[c2 out2]|] eqn:Er;
        [|discriminate].
      intros H. injection H as <- <-. exact (IH _ _ _ Er).
    + destruct (run (Some cb_handle_started, set_stopped true s) evs)
        as [[c2 out2]|] eqn:Er; [|discriminate].
      intros H. injection H as <- <-. exact (IH _ _ _ Er).
Qed.

(** X5.  In every run of a session the handler is invoked at most once,
    and once it has been invoked no callback is left registered.  The
    calls of the run are none at all, or a single report to the handler,
    or they begin with the seeding of the queue followed at once by the
    creation of the connector: only after these two come the connects, all
    on that connector, with no further seeding or creation, and then the
    handler can only be given [success].  So a failure code reaches the
    handler only when nothing was seeded, created or connected. *)
Theorem session_reports_once (s : session_header_sync) (evs : list event)
    (c : config) (out : list call) :
  run_session s evs = Some (c, out) ->
  (length (handler_calls out) <= 1)%nat /\
  (handler_calls out <> [] -> fst c = None) /\
  (out = [] \/
   (exists e, out = [call_handler e]) \/
   (exists seed rest,
      out = call_hashes_initialize seed
            :: call_create_connector (connectors_ s) :: rest /\
      initialize_calls rest = [] /\
      connector_calls rest = [] /\
      Forall (eq (connectors_ s)) (connect_calls rest) /\
      Forall (eq success) (handler_calls rest))) /\
  (length (initialize_calls out) <= 1)%nat /\
  (length (connector_calls out) <= 1)%nat /\
  Forall (eq (connectors_ s)) (connect_calls out) /\
  (connect_calls out <> [] ->
   length (initialize_calls out) = 1%nat /\
   connector_calls out = [connectors_ s]) /\
  (forall ec, In ec (handler_calls out) -> is_error ec = true ->
   out = [call_handler ec]).
Proof.
  unfold run_session, start, ret.
  destruct (run (Some cb_handle_started, s) evs) as [[c2 out2]|] eqn:Er;
    [|discriminate].
  intros H. injection H as <- <-. cbn [app].
  destruct (run_from_start evs s c2 out2 Er)
    as [(-> & Hp & _)
       |[(e & -> & Hn & _)
        |(seed & rest & -> & H1 & H2 & H3 & Hh & _)]].
  - simpl. split; [lia|]. split; [congruence|]. split; [auto|].
    split; [lia|]. split; [lia|]. split; [constructor|].
    split; [congruence|]. intros ec [].
  - simpl. split; [lia|]. split; [intros _; exact Hn|].
    split; [right; left; exists e; reflexivity|].
    split; [lia|]. split; [lia|]. split; [constructor|].
    split; [congruence|].
    intros ec [<-|[]] _. reflexivity.
  - change (call_hashes_initialize seed
            :: call_create_connector (connectors_ s) :: rest)
      with ([call_hashes_initialize seed;
             call_create_connector (connectors_ s)] ++ rest).
    rewrite handler_calls_app, initialize_calls_app, connector_calls_app,
      connect_calls_app, H1, H2.
    cbn [handler_calls initialize_calls connector_calls connect_calls
         flat_map app length].
    assert (Hs : Forall (eq success) (handler_calls rest)).
    { destruct Hh as [->|[-> _]]; auto. }
    split; [destruct Hh as [->|[-> _]]; simpl; lia|].
    split; [destruct Hh as [->|[-> Hn]]; [congruence|intros _; exact Hn]|].
    split.
    { right. right. exists seed, rest. repeat split; auto. }
    split; [lia|]. split; [lia|]. split; [exact H3|].
    split; [auto|].
    intros ec Hin Herr. exfalso. rewrite Forall_forall in Hs.
    rewrite <- (Hs ec Hin) in Herr. discriminate.
Qed.

Lemma session_reports_once_witness :
  let s := construct header_queue.fresh gap_chain [] in
  let evs := ev_result success :: attempt peer peer_timeout
             ++ [ev_connect not_found peer] ++ attempt peer success in
  exists c out,
    run_session s evs = Some (c, out) /\
    handler_calls out = [success] /\
    connect_calls out = [0; 0; 0]%nat /\
    (length (handler_calls out) <= 1)%nat /\
    (handler_calls out <> [] -> fst c = None).
Proof.
  intros s evs. eexists. eexists.
  split; [reflexivity|]. split; [reflexivity|]. split; [reflexivity|].
  refine (let H := session_reports_once s evs _ _ eq_refl in
          conj (proj1 H) (proj1 (proj2 H))).
Defined.

(** ** More on the range resolution *)



(** X7.  A well formed gap is never taken for a synced chain: when the
    resolution succeeds the seed is the header just below the gap, the stop
    is at or above the header just above it, so that every missing height
    lies in the range to download, and the seed differs from the stop. *)
Theorem gap_is_downloaded (chain : fast_chain) (cps : list checkpoint)
    (first_gap last_gap : Z) (out_seed out_stop seed stop : checkpoint) :
  gap_well_formed chain ->
  get_gap_range chain = Some (first_gap, last_gap) ->
  get_range chain cps out_seed out_stop = (success, seed, stop) ->
  height seed = first_gap - 1 /\
  last_gap + 1 <= height stop /\
  (forall h, first_gap <= h <= last_gap -> height seed < h <= height stop) /\
  checkpoint_eqb seed stop = false.
Proof.
  intros Hwf Hgap Hrun.
  destruct (get_range_success _ _ _ _ _ _ Hrun)
    as (tip & first & last & Ht & Hw & Hseed & Hstop).
  unfold gap_well_formed in Hwf. rewrite Hgap in Hwf.
  destruct Hwf as (H1 & H2 & H3).
  rewrite (working_heights_gap chain tip first_gap last_gap Hgap) in Hw.
  rewrite size_t_sub_exact, size_t_add_exact in Hw by lia.
  injection Hw as <- <-.
  pose proof (stored_checkpoint_height _ _ _ Hseed) as Hhs.
  assert (Hle : last_gap + 1 <= height stop).
  { destruct Hstop as [Ha|[_ Hs]].
    - apply checkpoint_above_Some in Ha. lia.
    - rewrite (stored_checkpoint_height _ _ _ Hs). lia. }
  split; [exact Hhs|]. split; [exact Hle|]. split; [intros h Hh; lia|].
  destruct (checkpoint_eqb seed stop) eqn:E; [|reflexivity].
  apply checkpoint_eqb_eq in E. subst stop. lia.
Qed.

Lemma gap_is_downloaded_witness :
  let seed := {| hash := 1009; height := 9 |} in
  let stop := {| hash := 1021; height := 21 |} in
  height seed = 10 - 1 /\
  20 + 1 <= height stop /\
  (forall h, 10 <= h <= 20 -> height seed < h <= height stop) /\
  checkpoint_eqb seed stop = false.
Proof.
  intros seed stop.
  assert (Hwf : gap_well_formed gap_chain).
  { unfold gap_well_formed. simpl. vm_compute. repeat split; discriminate. }
  exact (gap_is_downloaded gap_chain [] 10 20 default_checkpoint
           default_checkpoint seed stop Hwf eq_refl eq_refl).
Defined.

(** X8.  A successful resolution never invents a boundary: the last
    height of the chain could be read, the seed is a header of the chain,
    stored at the seed's height, and the stop is such a header too or the
    last of the session's checkpoints. *)
Theorem range_ends_are_known (chain : fast_chain) (cps : list checkpoint)
    (out_seed out_stop seed stop : checkpoint) :
  get_range chain cps out_seed out_stop = (success, seed, stop) ->
  stored_checkpoint chain (height seed) = Some seed /\
  (stored_checkpoint chain (height stop) = Some stop \/
   In stop cps /\ back cps = Some stop) /\
  exists tip, get_last_height chain = Some tip.
Proof.
  intros Hrun.
  destruct (get_range_success _ _ _ _ _ _ Hrun)
    as (tip & first & last & Ht & Hw & Hseed & Hstop).
  split; [|split; [|exists tip; exact Ht]].
  - rewrite (stored_checkpoint_height _ _ _ Hseed). exact Hseed.
  - destruct Hstop as [Ha|[_ Hs]].
    + right. apply checkpoint_above_Some in Ha. destruct Ha as [Hb _].
      split; [apply back_In|]; exact Hb.
    + left. rewrite (stored_checkpoint_height _ _ _ Hs). exact Hs.
Qed.

Lemma range_ends_are_known_witness :
  let seed := {| hash := 1009; height := 9 |} in
  let stop := {| hash := 1021; height := 21 |} in
  stored_checkpoint gap_chain (height seed) = Some seed /\
  (stored_checkpoint gap_chain (height stop) = Some stop \/
   In stop [] /\ back [] = Some stop) /\
  exists tip, get_last_height gap_chain = Some tip.
Proof.
  intros seed stop.
  exact (range_ends_are_known gap_chain [] default_checkpoint
           default_checkpoint seed stop eq_refl).
Defined.

(** * Further properties of the executor *)

(** ** Stop requests *)

Lemma node_started_success (ec : code) :
  is_error ec = false -> executor.node_started ec = executor.node_started success.
Proof. intros H. apply is_error_false in H. subst ec. reflexivity. Qed.

(** One event on statics in which nothing is recorded: the code the event
    requests is recorded, if it requests one; the run sequence of the node
    begins on a successful start only. *)
Lemma react_unset (ev : executor.event) (retrieved : bool) :
  exists effs,
    executor.react ev (executor.unset retrieved)
    = executor.returned
        (match executor.stop_request ev with
         | Some ec => executor.recorded ec retrieved
         | None => executor.unset retrieved
         end, effs) /\
    (In executor.call_node_run effs <-> ev = executor.node_started success) /\
    (In executor.call_node_subscribe_stop effs
     <-> ev = executor.node_started success).
Proof.
  destruct ev as [ec|ec|ec|n]; simpl.
  - unfold executor.handle_started. destruct (is_error ec) eqn:E.
    + eexists. split; [reflexivity|]. simpl.
      split; split; intros H; try (destruct H as [H|[]]; discriminate);
        injection H as ->; discriminate.
    + eexists. split; [reflexivity|]. rewrite (node_started_success ec E).
      simpl. split; split; auto.
  - unfold executor.handle_running. destruct (is_error ec) eqn:E;
      (eexists; split; [reflexivity|]); simpl;
      split; split; intros H; try discriminate;
      destruct H as [H|[]]; discriminate.
  - eexists. split; [reflexivity|]. simpl.
    split; split; intros H; try discriminate; destruct H.
  - unfold executor.handle_stop.
    destruct (n =? executor.initialize_stop);
      (eexists; split; [reflexivity|]); simpl;
      split; split; intros H; try discriminate;
      repeat (destruct H as [H|H]; try discriminate); destruct H.
Qed.

(** One event once a code is recorded: the statics stay as they are. *)
Lemma react_recorded (ev : executor.event) (first : code) (retrieved : bool) :
  exists effs,
    executor.react ev (executor.recorded first retrieved)
    = executor.returned (executor.recorded first retrieved, effs) /\
    (In executor.call_node_run effs <-> ev = executor.node_started success) /\
    (In executor.call_node_subscribe_stop effs
     <-> ev = executor.node_started success).
Proof.
  destruct ev as [ec|ec|ec|n]; simpl.
  - unfold executor.handle_started. destruct (is_error ec) eqn:E.
    + eexists. split; [reflexivity|]. simpl.
      split; split; intros H; try (destruct H as [H|[]]; discriminate);
        injection H as ->; discriminate.
    + eexists. split; [reflexivity|]. rewrite (node_started_success ec E).
      simpl. split; split; auto.
  - unfold executor.handle_running. destruct (is_error ec) eqn:E;
      (eexists; split; [reflexivity|]); simpl;
      split; split; intros H; try discriminate;
      destruct H as [H|[]]; discriminate.
  - eexists. split; [reflexivity|]. simpl.
    split; split; intros H; try discriminate; destruct H.
  - unfold executor.handle_stop.
    destruct (n =? executor.initialize_stop);
      (eexists; split; [reflexivity|]); simpl;
      split; split; intros H; try discriminate;
      repeat (destruct H as [H|H]; try discriminate); destruct H.
Qed.

Lemma reacts_recorded (evs : list executor.event) (first : code)
    (retrieved : bool) :
  exists effs,
    executor.reacts evs (executor.recorded first retrieved)
    = executor.returned (executor.recorded first retrieved, effs) /\
    (In executor.call_node_run effs
     <-> In (executor.node_started success) evs) /\
    (In executor.call_node_subscribe_stop effs
     <-> In (executor.node_started success) evs).
Proof.
  induction evs as [|ev evs IH].
  - exists []. simpl. tauto.
  - destruct (react_recorded ev first retrieved) as (e1 & H1 & Hr1 & Hs1).
    destruct IH as (e2 & H2 & Hr2 & Hs2).
    exists (e1 ++ e2). cbn [executor.reacts]. rewrite H1, H2.
    split; [reflexivity|]. rewrite !in_app_iff, Hr1, Hr2, Hs1, Hs2.
    simpl. split; split; intros [H|H]; auto.
Qed.

(** X9.  Whatever reaches the executor, in whatever order, no handler
    throws and the code recorded for the waiter is the one of the first
    event that requests a stop: a failed start, a failed run, the stop of
    the node, or a signal other than the initial call, which records
    [success]; a successful start or run records nothing.  The run
    sequence of the node and the stop subscription begin exactly on a
    successful start. *)
Theorem first_stop_request_wins (evs : list executor.event)
    (retrieved : bool) :
  exists effs,
    executor.reacts evs (executor.unset retrieved)
    = executor.returned
        (match executor.first_stop_request evs with
         | Some ec => executor.recorded ec retrieved
         | None => executor.unset retrieved
         end, effs) /\
    executor.wait
      (executor.stopping_
         (match executor.first_stop_request evs with
          | Some ec => executor.recorded ec retrieved
          | None => executor.unset retrieved
          end))
    = executor.first_stop_request evs /\
    (In executor.call_node_run effs
     <-> In (executor.node_started success) evs) /\
    (In executor.call_node_subscribe_stop effs
     <-> In (executor.node_started success) evs).
Proof.
  induction evs as [|ev evs IH].
  - exists []. simpl. tauto.
  - destruct (react_unset ev retrieved) as (e1 & H1 & Hr1 & Hs1).
    cbn [executor.reacts executor.first_stop_request]. rewrite H1.
    destruct (executor.stop_request ev) as [ec|].
    + destruct (reacts_recorded evs ec retrieved) as (e2 & H2 & Hr2 & Hs2).
      exists (e1 ++ e2). rewrite H2. split; [reflexivity|].
      split; [reflexivity|]. rewrite !in_app_iff, Hr1, Hr2, Hs1, Hs2.
      simpl. split; split; intros [H|H]; auto.
    + destruct IH as (e2 & H2 & Hw & Hr2 & Hs2).
      exists (e1 ++ e2). rewrite H2. split; [reflexivity|].
      split; [exact Hw|]. rewrite !in_app_iff, Hr1, Hr2, Hs1, Hs2.
      simpl. split; split; intros [H|H]; auto.
Qed.

(** ** The commands *)

Lemma react_effects (ev : executor.event) (st st' : executor.statics)
    (effs : list executor.effect) :
  executor.react ev st = executor.returned (st', effs) ->
  forallb executor.handler_effect effs = true.
Proof.
  destruct ev as [ec|ec|ec|n]; simpl.
  - unfold executor.handle_started. destruct (is_error ec).
    + destruct (executor.stop ec st); simpl; [|discriminate].
      intros H. injection H as <- <-. reflexivity.
    + intros H. injection H as <- <-. reflexivity.
  - unfold executor.handle_running. destruct (is_error ec).
    + destruct (executor.stop ec st); simpl; [|discriminate].
      intros H. injection H as <- <-. reflexivity.
    + intros H. injection H as <- <-. reflexivity.
  - destruct (executor.handle_stopped ec st); simpl; [|discriminate].
    intros H. injection H as <- <-. reflexivity.
  - destruct (executor.handle_stop n st); simpl; [|discriminate].
    intros H. injection H as <- <-.
    destruct (n =? executor.initialize_stop); reflexivity.
Qed.

Lemma reacts_effects (evs : list executor.event) (st st' : executor.statics)
    (effs : list executor.effect) :
  executor.reacts evs st = executor.returned (st', effs) ->
  forallb executor.handler_effect effs = true.
Proof.
  revert st st' effs. induction evs as [|ev evs IH]; intros st st' effs.
  - simpl. intros H. injection H as <- <-. reflexivity.
  - cbn [executor.reacts].
    destruct (executor.react ev st) as [[st1 e1]|] eqn:E1; [|discriminate].
    destruct (executor.reacts evs st1) as [[st2 e2]|] eqn:E2; [|discriminate].
    intros H. injection H as <- <-.
    rewrite forallb_app, (react_effects _ _ _ _ E1), (IH _ _ _ E2).
    reflexivity.
Qed.

Lemma handler_effect_excludes (effs : list executor.effect)
    (e : executor.effect) :
  forallb executor.handler_effect effs = true ->
  executor.handler_effect e = false ->
  ~ In e effs.
Proof.
  intros Hall He Hin. rewrite forallb_forall in Hall.
  rewrite (Hall e Hin) in He. discriminate.
Qed.

Lemma handler_effects_touch (effs : list executor.effect) :
  forallb executor.handler_effect effs = true ->
  existsb executor.touches_database effs = false.
Proof.
  induction effs as [|e effs IH]; [reflexivity|]. simpl.
  intros H. apply andb_true_iff in H. destruct H as [He H].
  rewrite (IH H). destruct e; try discriminate; reflexivity.
Qed.

Lemma initialize_output_outputs (cfg : executor.configuration) :
  forallb executor.output_effect (executor.initialize_output cfg) = true.
Proof. unfold executor.initialize_output. destruct (executor.file_empty cfg); reflexivity. Qed.

Lemma output_effects_touch (effs : list executor.effect) :
  forallb executor.output_effect effs = true ->
  existsb executor.touches_database effs = false /\
  existsb executor.touches_node effs = false /\
  ~ In executor.call_create_directories effs /\
  ~ In executor.call_exists effs.
Proof.
  induction effs as [|e effs IH]; [simpl; tauto|]. simpl.
  intros H. apply andb_true_iff in H. destruct H as [He H].
  destruct (IH H) as (H1 & H2 & H3 & H4). rewrite H1, H2.
  destruct e; try discriminate; simpl; repeat split; auto;
    intros [E|E]; try discriminate; auto.
Qed.


(** X10.  [do_initchain] creates the database only in a directory it has
    just created, from the genesis block of the configured chain, and
    returns what that creation returned; when the directory is there
    already, or cannot be created, it returns [false] without touching
    the database and reports which of the two it was.  It never touches
    the node. *)
Theorem initchain_creates_once (env : executor.environment)
    (cfg : executor.configuration) :
  let result := fst (executor.do_initchain env cfg) in
  let effs := snd (executor.do_initchain env cfg) in
  let created := fst (executor.create_directories_result env) in
  let ec := snd (executor.create_directories_result env) in
  (result = true <-> created = true /\ executor.create_result env = true) /\
  existsb executor.touches_database effs = created /\
  (forall g, In (executor.call_database_create g) effs ->
     g = if executor.use_testnet_rules cfg
         then executor.genesis_testnet else executor.genesis_mainnet) /\
  (In (executor.log executor.log_error executor.BN_INITCHAIN_EXISTS) effs
   <-> created = false /\ ec = 0) /\
  (In (executor.log executor.log_error executor.BN_INITCHAIN_NEW) effs
   <-> created = false /\ ec <> 0) /\
  existsb executor.touches_node effs = false.
Proof.
  unfold executor.do_initchain.
  pose proof (initialize_output_outputs cfg) as Hout.
  pose proof (proj1 (forallb_forall _ _) Hout) as Hall.
  destruct (output_effects_touch _ Hout) as (Hdb & Hnode & _).
  destruct (executor.create_directories_result env) as [created ec].
  destruct created; cbn [fst snd].
  - rewrite !existsb_app, Hdb, Hnode. cbn [existsb executor.touches_database
      executor.touches_node orb].
    split; [tauto|]. split; [reflexivity|]. split; [|split; [|split]].
    + intros g Hin. apply in_app_or in Hin. destruct Hin as [Hin|Hin].
      * apply Hall in Hin. discriminate.
      * simpl in Hin. destruct Hin as [H|[H|[H|[H|[]]]]]; try discriminate.
        injection H as <-. reflexivity.
    + split; [|intros [H _]; discriminate].
      intros Hin. apply in_app_or in Hin. destruct Hin as [Hin|Hin].
      * exfalso. unfold executor.initialize_output in Hin.
        destruct (executor.file_empty cfg); simpl in Hin;
          repeat (destruct Hin as [Hin|Hin]; try discriminate); destruct Hin.
      * simpl in Hin.
        repeat (destruct Hin as [Hin|Hin]; try discriminate); destruct Hin.
    + split; [|intros [H _]; discriminate].
      intros Hin. apply in_app_or in Hin. destruct Hin as [Hin|Hin].
      * exfalso. unfold executor.initialize_output in Hin.
        destruct (executor.file_empty cfg); simpl in Hin;
          repeat (destruct Hin as [Hin|Hin]; try discriminate); destruct Hin.
      * simpl in Hin.
        repeat (destruct Hin as [Hin|Hin]; try discriminate); destruct Hin.
    + reflexivity.
  - unfold executor.directory_exists.
    destruct (ec =? 0) eqn:E; cbn [fst snd];
      rewrite !existsb_app, Hdb, Hnode;
      cbn [existsb executor.touches_database executor.touches_node orb];
      (split; [split; [discriminate|intros [H _]; discriminate]|]);
      (split; [reflexivity|]); (split; [|split; [|split; [|reflexivity]]]).
    + intros g Hin. apply in_app_or in Hin. destruct Hin as [Hin|Hin].
      * apply Hall in Hin. discriminate.
      * simpl in Hin. destruct Hin as [H|[H|[]]]; discriminate.
    + apply Z.eqb_eq in E. split; [auto|]. intros _.
      apply in_or_app. right. simpl. auto.
    + apply Z.eqb_eq in E. split; [|intros [_ H]; contradiction].
      intros Hin. apply in_app_or in Hin. destruct Hin as [Hin|Hin].
      * exfalso. unfold executor.initialize_output in Hin.
        destruct (executor.file_empty cfg); simpl in Hin;
          repeat (destruct Hin as [Hin|Hin]; try discriminate); destruct Hin.
      * simpl in Hin.
        repeat (destruct Hin as [Hin|Hin]; try discriminate); destruct Hin.
    + intros g Hin. apply in_app_or in Hin. destruct Hin as [Hin|Hin].
      * apply Hall in Hin. discriminate.
      * simpl in Hin. destruct Hin as [H|[H|[]]]; discriminate.
    + apply Z.eqb_neq in E. split; [|intros [_ H]; contradiction].
      intros Hin. apply in_app_or in Hin. destruct Hin as [Hin|Hin].
      * exfalso. unfold executor.initialize_output in Hin.
        destruct (executor.file_empty cfg); simpl in Hin;
          repeat (destruct Hin as [Hin|Hin]; try discriminate); destruct Hin.
      * simpl in Hin.
        repeat (destruct Hin as [Hin|Hin]; try discriminate); destruct Hin.
    + apply Z.eqb_neq in E. split; [auto|]. intros _.
      apply in_or_app. right. simpl. auto.
Qed.

(** The statics after any events, from statics in which nothing is
    recorded. *)
Lemma reacts_unset (evs : list executor.event) (retrieved : bool) :
  exists effs,
    executor.reacts evs (executor.unset retrieved)
    = executor.returned
        (match executor.first_stop_request evs with
         | Some ec => executor.recorded ec retrieved
         | None => executor.unset retrieved
         end, effs).
Proof.
  induction evs as [|ev evs IH].
  - exists []. reflexivity.
  - destruct (react_unset ev retrieved) as (e1 & H1 & _).
    cbn [executor.reacts executor.first_stop_request]. rewrite H1.
    destruct (executor.stop_request ev) as [ec|].
    + destruct (reacts_recorded evs ec retrieved) as (e2 & H2 & _).
      exists (e1 ++ e2). rewrite H2. reflexivity.
    + destruct IH as (e2 & H2).
      exists (e1 ++ e2). rewrite H2. reflexivity.
Qed.

(** What [run] does, event handlers and all. *)
Lemma run_trace (env : executor.environment) (cfg : executor.configuration)
    (evs : list executor.event) :
  let found := fst (executor.exists_result env) in
  let request := executor.first_stop_request evs in
  let opening :=
    executor.initialize_output cfg ++
    [executor.log executor.log_info executor.BN_NODE_INTERRUPT;
     executor.log executor.log_info executor.BN_NODE_STARTING] in
  exists handled,
    executor.reacts evs (executor.unset false)
    = executor.returned
        (match request with
         | Some ec => executor.recorded ec false
         | None => executor.unset false
         end, handled) /\
    forallb executor.handler_effect handled = true /\
    executor.run env cfg evs (executor.unset false)
    = executor.returned
        (if found
         then match request with Some _ => Some true | None => None end
         else Some false,
         if found
         then match request with
              | Some ec => executor.recorded ec true
              | None => executor.unset true
              end
         else executor.unset false,
         opening ++ snd (executor.verify_directory env) ++
         if found then
           [executor.call_node_construct; executor.call_node_start] ++
           handled ++
           match request with
           | Some _ =>
               [executor.log executor.log_info executor.BN_NODE_STOPPING;
                executor.call_node_close;
                if executor.close_result env
                then executor.log executor.log_info executor.BN_NODE_STOPPED
                else executor.log executor.log_info executor.BN_NODE_STOP_FAIL]
           | None => []
           end
         else []).
Proof.
  intros found request opening.
  destruct (reacts_unset evs false) as (handled & Hr).
  exists handled. split; [exact Hr|].
  split; [exact (reacts_effects _ _ _ _ Hr)|].
  unfold executor.run. fold opening.
  unfold found, executor.verify_directory.
  destruct (executor.exists_result env) as [fnd ec]. cbn [fst].
  destruct fnd.
  - cbn [negb snd]. rewrite Hr. fold request.
    destruct request as [rc|]; cbn; rewrite ?app_nil_r, <- ?app_assoc;
      reflexivity.
  - destruct (ec =? executor.directory_not_found); cbn [negb snd];
      rewrite app_nil_r; reflexivity.
Qed.

Lemma verify_directory_effects (env : executor.environment) :
  forall e, In e (snd (executor.verify_directory env)) ->
            e = executor.call_exists \/ executor.output_effect e = true.
Proof.
  unfold executor.verify_directory.
  destruct (executor.exists_result env) as [fnd ec].
  destruct fnd; [|destruct (ec =? executor.directory_not_found)];
    simpl; intros e H;
    repeat (destruct H as [H|H]; [subst e; auto|]); destruct H.
Qed.

(** X11.  What [run] does, in order: it logs its opening lines and checks
    the directory; when the check fails it returns [false] and does nothing
    more, so the node is never constructed.  When the directory is there
    it constructs the node, then starts it, then come the logs and calls
    of the handlers of the events that reach it (which never construct,
    start or close the node), and [run] stays in its wait until one of
    them requests a stop; then it logs, closes the node, logs the outcome
    of [close] and returns [true], whatever code was recorded and whatever
    [close] returned: a failed start of the node is not a failure of
    [run].  It never touches the database. *)
Theorem run_outcome (env : executor.environment)
    (cfg : executor.configuration) (evs : list executor.event) :
  let found := fst (executor.exists_result env) in
  let request := executor.first_stop_request evs in
  let opening :=
    executor.initialize_output cfg ++
    [executor.log executor.log_info executor.BN_NODE_INTERRUPT;
     executor.log executor.log_info executor.BN_NODE_STARTING] in
  let closing :=
    [executor.log executor.log_info executor.BN_NODE_STOPPING;
     executor.call_node_close;
     if executor.close_result env
     then executor.log executor.log_info executor.BN_NODE_STOPPED
     else executor.log executor.log_info executor.BN_NODE_STOP_FAIL] in
  exists handled effs,
    executor.reacts evs (executor.unset false)
    = executor.returned
        (match request with
         | Some ec => executor.recorded ec false
         | None => executor.unset false
         end, handled) /\
    forallb executor.handler_effect handled = true /\
    effs
    = opening ++ snd (executor.verify_directory env) ++
      (if found then
         [executor.call_node_construct; executor.call_node_start] ++
         handled ++
         match request with
         | Some _ => closing
         | None => []
         end
       else []) /\
    executor.run env cfg evs (executor.unset false)
    = executor.returned
        (if found
         then match request with Some _ => Some true | None => None end
         else Some false,
         if found
         then match request with
              | Some ec => executor.recorded ec true
              | None => executor.unset true
              end
         else executor.unset false,
         effs) /\
    (In executor.call_node_construct effs <-> found = true) /\
    (In executor.call_node_start effs <-> found = true) /\
    (In executor.call_node_close effs <-> found = true /\ request <> None) /\
    existsb executor.touches_database effs = false.
Proof.
  intros found request opening closing.
  destruct (run_trace env cfg evs) as (handled & Hreacts & Hh & Hrun).
  fold found request opening in Hrun. fold request in Hreacts.
  exists handled. eexists.
  split; [exact Hreacts|]. split; [exact Hh|]. split; [reflexivity|].
  split; [exact Hrun|].
  unfold opening, closing.
  pose proof (initialize_output_outputs cfg) as Hout.
  pose proof (proj1 (forallb_forall _ _) Hout) as Hall.
  pose proof (verify_directory_effects env) as Hver.
  assert (Hfront : forall e,
            e <> executor.call_exists -> executor.output_effect e = false ->
            ~ In e ((executor.initialize_output cfg ++
                     [executor.log executor.log_info executor.BN_NODE_INTERRUPT;
                      executor.log executor.log_info executor.BN_NODE_STARTING])
                    ++ snd (executor.verify_directory env))).
  { intros e Hne He Hin. rewrite !in_app_iff in Hin.
    destruct Hin as [[Hin|Hin]|Hin].
    - apply Hall in Hin. congruence.
    - simpl in Hin. destruct Hin as [<-|[<-|[]]]; discriminate.
    - destruct (Hver e Hin); congruence. }
  assert (Hfrontdb :
            existsb executor.touches_database
              ((executor.initialize_output cfg ++
                [executor.log executor.log_info executor.BN_NODE_INTERRUPT;
                 executor.log executor.log_info executor.BN_NODE_STARTING])
               ++ snd (executor.verify_directory env)) = false).
  { destruct (existsb _ _) eqn:E; [|reflexivity].
    apply existsb_exists in E. destruct E as (e & Hin & He).
    destruct e; try discriminate.
    exfalso. eapply Hfront; [| |exact Hin]; [discriminate|reflexivity]. }
  rewrite app_assoc.
  split; [|split; [|split]].
  - rewrite in_app_iff. destruct found.
    + split; [reflexivity|]. intros _. right. simpl. auto.
    + split; [|discriminate]. intros [Hin|[]]. exfalso.
      eapply Hfront; [| |exact Hin]; [discriminate|reflexivity].
  - rewrite in_app_iff. destruct found.
    + split; [reflexivity|]. intros _. right. simpl. auto.
    + split; [|discriminate]. intros [Hin|[]]. exfalso.
      eapply Hfront; [| |exact Hin]; [discriminate|reflexivity].
  - rewrite in_app_iff. destruct found.
    + destruct request as [rc|].
      * split; [intros _; split; [reflexivity|discriminate]|].
        intros _. right. simpl. right. right.
        apply in_or_app. right. simpl. auto.
      * split; [|intros [_ H]; contradiction].
        intros [Hin|Hin]; exfalso.
        -- eapply Hfront; [| |exact Hin]; [discriminate|reflexivity].
        -- rewrite app_nil_r in Hin. simpl in Hin.
           destruct Hin as [H|[H|Hin]]; try discriminate.
           exact (handler_effect_excludes handled executor.call_node_close
                    Hh eq_refl Hin).
    + split; [|intros [H _]; discriminate]. intros [Hin|[]]. exfalso.
      eapply Hfront; [| |exact Hin]; [discriminate|reflexivity].
  - rewrite existsb_app, Hfrontdb. destruct found; [|reflexivity].
    simpl. rewrite existsb_app, (handler_effects_touch _ Hh).
    destruct request; [|reflexivity].
    simpl. destruct (executor.close_result env); reflexivity.
Qed.



(** * Further properties of the back-off *)

Lemma back_off_exact_below_spec (n m : nat) :
  back_off_exact_below n = true -> (m < n)%nat ->
  back_off_exact (Z.of_nat m) = true.
Proof.
  induction n as [|n IH]; intros H Hm; [lia|].
  cbn [back_off_exact_below] in H. apply andb_true_iff in H.
  destruct H as [H1 H2].
  destruct (Nat.eq_dec m n) as [->|Hne]; [exact H1|].
  apply IH; [exact H2|lia].
Qed.

Lemma back_off_exact_table :
  back_off_exact_below (Z.to_nat (headers_per_second + 1)) = true.
Proof. vm_compute. reflexivity. Qed.

(** X13.  On every minimum rate up to the initial 10000 the single
    precision product is cast without loss of the integer part: the
    back-off of [r] is three quarters of [r] rounded down, the cast is
    defined, a positive rate gets strictly lower and stays non-negative,
    and [0] is the only rate the back-off leaves as it is. *)
Theorem back_off_truncates (r : Z) :
  0 <= r <= headers_per_second ->
  back_off r = 3 * r / 4 /\
  float32.cast_defined
    (float32.mul (float32.of_uint32 r) back_off_factor) = true /\
  0 <= back_off r <= r /\
  (0 < r -> back_off r < r) /\
  (back_off r = r <-> r = 0).
Proof.
  intros Hr. unfold headers_per_second in Hr.
  assert (Hx : back_off_exact r = true).
  { rewrite <- (Z2Nat.id r) by lia.
    apply (back_off_exact_below_spec (Z.to_nat (headers_per_second + 1)));
      [exact back_off_exact_table|unfold headers_per_second; lia]. }
  unfold back_off_exact in Hx. apply andb_true_iff in Hx.
  destruct Hx as [Hb Hc]. apply Z.eqb_eq in Hb.
  split; [exact Hb|]. split; [exact Hc|].
  rewrite Hb.
  pose proof (Z.mul_div_le (3 * r) 4 ltac:(lia)) as Hle.
  assert (Hnn : 0 <= 3 * r / 4) by (apply Z.div_pos; lia).
  assert (Hlt : 0 < r -> 3 * r / 4 < r)
    by (intros Hp; apply Z.div_lt_upper_bound; lia).
  split; [lia|]. split; [exact Hlt|].
  split; [|intros ->; reflexivity].
  intros He. destruct (Z.eq_dec r 0) as [E|E]; [exact E|].
  assert (0 < r) by lia. specialize (Hlt H). lia.
Qed.

Lemma back_off_truncates_witness :
  back_off 4218 = 3 * 4218 / 4 /\
  float32.cast_defined
    (float32.mul (float32.of_uint32 4218) back_off_factor) = true /\
  0 <= back_off 4218 <= 4218 /\
  (0 < 4218 -> back_off 4218 < 4218) /\
  (back_off 4218 = 4218 <-> 4218 = 0).
Proof.
  apply back_off_truncates. unfold headers_per_second. lia.
Defined.

(** * Further properties of the retry loop *)

Lemma step_connect_success (k : connector) (ch : channel)
    (s : session_header_sync) :
  step (Some (cb_handle_connect k), s) (ev_connect success ch)
  = Some ((Some (cb_handle_channel_start k ch), s), [call_register_channel ch]).
Proof. reflexivity. Qed.

Lemma step_connect_failure (k : connector) (ch : channel) (ec : code)
    (s : session_header_sync) :
  stopped_ s = false -> is_error ec = true ->
  step (Some (cb_handle_connect k), s) (ev_connect ec ch)
  = Some ((Some (cb_handle_connect k), s), [call_connect k]).
Proof.
  intros Hs Hec. cbn [step deliver].
  rewrite (handle_connect_failure ec ch k s Hec).
  rewrite (new_connection_running k s Hs). reflexivity.
Qed.

Lemma step_handshake_success (k : connector) (ch : channel)
    (s : session_header_sync) :
  step (Some (cb_handle_channel_start k ch), s) (ev_result success)
  = Some ((Some (cb_handle_complete k), s),
          [call_attach (if negotiated_version ch >=? level.bip31
                        then protocol_ping_60001 else protocol_ping_31402) ch;
           call_attach protocol_address_31402 ch;
           call_attach (protocol_header_sync (minimum_rate_ s) (last_ s)) ch]).
Proof.
  cbn [step deliver]. unfold handle_channel_start. cbn [is_error].
  rewrite attach_protocols_trace. reflexivity.
Qed.

Lemma step_handshake_failure (k : connector) (ch : channel) (ec : code)
    (s : session_header_sync) :
  stopped_ s = false -> is_error ec = true ->
  step (Some (cb_handle_channel_start k ch), s) (ev_result ec)
  = Some ((Some (cb_handle_connect k),
           set_minimum_rate (back_off (minimum_rate_ s)) s),
          [call_connect k]).
Proof.
  intros Hs Hec. cbn [step deliver].
  rewrite (handle_channel_start_failure ec k ch s Hec).
  rewrite (handle_complete_failure ec k s Hec).
  rewrite new_connection_running by exact Hs. reflexivity.
Qed.

Lemma step_download_failure (k : connector) (ec : code)
    (s : session_header_sync) :
  stopped_ s = false -> is_error ec = true ->
  step (Some (cb_handle_complete k), s) (ev_result ec)
  = Some ((Some (cb_handle_connect k),
           set_minimum_rate (back_off (minimum_rate_ s)) s),
          [call_connect k]).
Proof.
  intros Hs Hec. cbn [step deliver].
  rewrite (handle_complete_failure ec k s Hec).
  rewrite new_connection_running by exact Hs. reflexivity.
Qed.

(** One failed attempt of a session that is not stopped ends in a connect
    on the same connector; the handler is not invoked, and the rate is
    backed off unless it was the connect that failed. *)
Lemma run_failure (k : connector) (ch : channel) (f : failure)
    (rest : list event) (s : session_header_sync) :
  stopped_ s = false ->
  is_error (failure_code f) = true ->
  exists calls,
    handler_calls calls = [] /\ connect_calls calls = [k] /\
    connector_calls calls = [] /\
    run (Some (cb_handle_connect k), s) (failure_events ch f ++ rest)
    = match run (Some (cb_handle_connect k),
                 if backs_off f
                 then set_minimum_rate (back_off (minimum_rate_ s)) s
                 else s) rest with
      | None => None
      | Some (c, out) => Some (c, calls ++ out)
      end.
Proof.
  intros Hs Hec. destruct f as [ec|ec|ec]; simpl in Hec.
  - exists [call_connect k]. repeat split.
    cbn [failure_events app run backs_off].
    rewrite (step_connect_failure k ch ec s Hs Hec).
    destruct (run _ rest) as [[c out]|]; reflexivity.
  - exists [call_register_channel ch; call_connect k]. repeat split.
    cbn [failure_events app run backs_off].
    rewrite step_connect_success.
    rewrite (step_handshake_failure k ch ec s Hs Hec).
    destruct (run _ rest) as [[c out]|]; reflexivity.
  - exists [call_register_channel ch;
            call_attach (if negotiated_version ch >=? level.bip31
                         then protocol_ping_60001 else protocol_ping_31402) ch;
            call_attach protocol_address_31402 ch;
            call_attach (protocol_header_sync (minimum_rate_ s) (last_ s)) ch;
            call_connect k].
    split; [destruct (negotiated_version ch >=? level.bip31); reflexivity|].
    split; [destruct (negotiated_version ch >=? level.bip31); reflexivity|].
    split; [destruct (negotiated_version ch >=? level.bip31); reflexivity|].
    cbn [failure_events app run backs_off].
    rewrite step_connect_success, step_handshake_success.
    rewrite (step_download_failure k ec s Hs Hec).
    destruct (run _ rest) as [[c out]|]; reflexivity.
Qed.

Lemma run_failures (k : connector) (ch : channel) (fs : list failure)
    (s : session_header_sync) :
  stopped_ s = false ->
  Forall (fun f => is_error (failure_code f) = true) fs ->
  exists final out,
    run (Some (cb_handle_connect k), s)
        (flat_map (failure_events ch) fs ++ attempt ch success)
    = Some ((None, final), out) /\
    handler_calls out = [success] /\
    connect_calls out = repeat k (length fs) /\
    connector_calls out = [] /\
    minimum_rate_ final
    = Nat.iter (length (filter backs_off fs)) back_off (minimum_rate_ s).
Proof.
  intros Hs Hf. revert s Hs.
  induction Hf as [|f fs Hec Hf IH]; intros s Hs.
  - destruct (run_connected k ch s) as [ping Hrun].
    exists s. eexists. cbn [flat_map app]. unfold attempt.
    split; [exact Hrun|]. repeat split.
  - cbn [flat_map]. rewrite <- app_assoc.
    destruct (run_failure k ch f
                (flat_map (failure_events ch) fs ++ attempt ch success)
                s Hs Hec) as (calls & Hh & Hc & Hk & ->).
    set (s1 := if backs_off f
               then set_minimum_rate (back_off (minimum_rate_ s)) s else s).
    assert (Hs1 : stopped_ s1 = false)
      by (unfold s1; destruct (backs_off f); exact Hs).
    destruct (IH s1 Hs1) as (final & out & -> & Hh2 & Hc2 & Hk2 & Hr).
    exists final, (calls ++ out). split; [reflexivity|].
    rewrite handler_calls_app, connect_calls_app, connector_calls_app,
      Hh, Hc, Hk, Hh2, Hc2, Hk2.
    repeat split. rewrite Hr. unfold s1. cbn [filter].
    destruct (backs_off f); [|reflexivity].
    cbn [length]. rewrite Nat.iter_succ_r. reflexivity.
Qed.

(** X14.  Whatever the failures of a session that is not stopped are,
    of the connect, of the handshake or of the download, and in whatever
    order, when an attempt succeeds at last the handler is invoked exactly
    once, with [success]; there was one connect per failure and one more,
    all on the one connector created, and the minimum rate has been backed
    off once per failed handshake or download and never for a failed
    connect. *)
Theorem session_survives_failures (s : session_header_sync)
    (seed stop : checkpoint) (fs : list failure) (ch : channel) :
  header_queue.empty (hashes_ s) = true ->
  stopped_ s = false ->
  get_range (chain_ s) (checkpoints_ s) default_checkpoint (last_ s)
    = (success, seed, stop) ->
  checkpoint_eqb seed stop = false ->
  Forall (fun f => is_error (failure_code f) = true) fs ->
  exists final out,
    run_session s
      (ev_result success :: flat_map (failure_events ch) fs
       ++ attempt ch success)
    = Some ((None, final), out) /\
    handler_calls out = [success] /\
    connect_calls out = repeat (connectors_ s) (S (length fs)) /\
    connector_calls out = [connectors_ s] /\
    minimum_rate_ final
    = Nat.iter (length (filter backs_off fs)) back_off (minimum_rate_ s).
Proof.
  intros Hq Hs Hrange Hne Hf.
  unfold run_session, start, ret. cbn [run step deliver].
  rewrite (handle_started_connects s seed stop Hq Hs Hrange Hne).
  set (k := connectors_ s).
  set (s1 := set_connectors (S k) _).
  destruct (run_failures k ch fs s1 Hs Hf)
    as (final & out & -> & Hh & Hc & Hk & Hr).
  exists final. eexists. split; [reflexivity|].
  cbn [app].
  change (call_hashes_initialize seed :: call_create_connector k
          :: call_connect k :: out)
    with ([call_hashes_initialize seed; call_create_connector k;
           call_connect k] ++ out).
  rewrite handler_calls_app, connect_calls_app, connector_calls_app,
    Hh, Hc, Hk.
  repeat split. exact Hr.
Qed.

Lemma session_survives_failures_witness :
  let s := construct header_queue.fresh gap_chain [] in
  exists final out,
    run_session s
      (ev_result success ::
       flat_map (failure_events peer)
         [download_failure peer_timeout; connect_failure not_found;
          handshake_failure peer_timeout]
       ++ attempt peer success)
    = Some ((None, final), out) /\
    handler_calls out = [success] /\
    connect_calls out = [0; 0; 0; 0]%nat /\
    connector_calls out = [0%nat] /\
    minimum_rate_ final = 5625.
Proof.
  intros s.
  assert (Hf : Forall (fun f => is_error (failure_code f) = true)
                 [download_failure peer_timeout; connect_failure not_found;
                  handshake_failure peer_timeout])
    by (repeat constructor).
  exact (session_survives_failures s {| hash := 1009; height := 9 |}
           {| hash := 1021; height := 21 |} _ peer
           eq_refl eq_refl eq_refl eq_refl Hf).
Defined.

(** X15.  Channel stop notifications do not drive the session: a run with
    them does what the run without them does. *)
Theorem channel_stops_are_ignored (c : config) (evs : list event) :
  run c (filter (fun ev => negb (is_channel_stop ev)) evs) = run c evs.
Proof.
  revert c. induction evs as [|ev evs IH]; intros c; [reflexivity|].
  destruct ev as [ec|ec ch|ec|]; cbn [filter is_channel_stop negb].
  - cbn [run]. destruct (step c (ev_result ec)) as [[c1 out1]|];
      [rewrite IH|]; reflexivity.
  - cbn [run]. destruct (step c (ev_connect ec ch)) as [[c1 out1]|];
      [rewrite IH|]; reflexivity.
  - rewrite IH. cbn [run]. destruct c as [p s].
    cbn [step handle_channel_stop ret].
    destruct (run (p, s) evs) as [[c2 out2]|]; reflexivity.
  - cbn [run]. destruct (step c ev_stop) as [[c1 out1]|];
      [rewrite IH|]; reflexivity.
Qed.

(** X16.  A gap reported from height [0] is not below any header: the seed
    height [first_gap - 1] wraps around to the largest [size_t], and
    unless a header is stored at that height the resolution fails with
    [not_found] and leaves the out parameters alone. *)
Theorem gap_from_genesis_wraps (chain : fast_chain) (cps : list checkpoint)
    (tip last_gap : Z) (out_seed out_stop : checkpoint) :
  get_last_height chain = Some tip ->
  get_gap_range chain = Some (0, last_gap) ->
  fst (working_heights chain tip) = size_t.max /\
  (get_header chain size_t.max = None ->
   get_range chain cps out_seed out_stop = (not_found, out_seed, out_stop)) /\
  (forall seed stop,
     get_range chain cps out_seed out_stop = (success, seed, stop) ->
     height seed = size_t.max).
Proof.
  intros Htip Hgap.
  assert (Hw : working_heights chain tip = (size_t.max, size_t.add last_gap 1)).
  { rewrite (working_heights_gap chain tip 0 last_gap Hgap). reflexivity. }
  split; [rewrite Hw; reflexivity|]. split.
  - intros Hnone. unfold get_range. rewrite Htip, Hw, Hnone. reflexivity.
  - intros seed stop Hrun.
    destruct (get_range_success _ _ _ _ _ _ Hrun)
      as (tip' & first & last & Ht & Hw' & Hseed & _).
    rewrite Htip in Ht. injection Ht as <-.
    rewrite Hw in Hw'. injection Hw' as <- <-.
    exact (stored_checkpoint_height _ _ _ Hseed).
Qed.

Lemma gap_from_genesis_wraps_witness :
  let chain :=
    {| get_last_height := Some 30;
       get_gap_range := Some (0, 20);
       get_header := fun h =>
         if (21 <=? h) && (h <=? 30)
         then Some (Build_header (1000 + h)) else None |} in
  get_range chain [] default_checkpoint default_checkpoint
  = (not_found, default_checkpoint, default_checkpoint).
Proof.
  intros chain.
  exact (proj1 (proj2 (gap_from_genesis_wraps chain [] 30 20
                         default_checkpoint default_checkpoint
                         eq_refl eq_refl)) eq_refl).
Defined.
